(** * analyze_slices.py: slice classifiers and the accuracy aggregator

    A shallow embedding of [src/analyze_slices.py].

    Modelling choices.
    - A text is an ASCII [string]; an argument typed [str] that may also be
      Python's [None] is an [option string].  On ASCII text [str.lower],
      [re.IGNORECASE], [str.strip], [int] and the classes [\w], [\b] reduce
      to the tables below.  On other text they follow the tables of Unicode,
      which are not part of the embedding: a property that depends on them
      is stated for [ascii_text] only.
    - A JSON row is a record of its four fields.  Each field is absent,
      [null], or a value of the type the data model gives it (a string for
      the texts, an integer for the labels).
    - [Counter] and [defaultdict] are finite maps ([gmap]); reading a missing
      [Counter] key yields 0.
    - The quotient [len(sa & sb) / len(sa | sb)] is a rational.  For sets of
      fewer than 2^50 tokens the IEEE double it stands for compares with
      0.5 and 0.2 as the rational does, and it is exactly 0.0 or 1.0 when the
      rational is 0 or 1.
    - [str] and [int] on integers are the writing and the reading of decimal
      literals; the rows are taken as already read from the file, so
      [json.loads] and the command line parser are outside the embedding. *)

From Stdlib Require Import QArith Ascii String DecimalString DecimalPos DecimalZ.
From stdpp Require Import gmap strings list fin_maps sorting.

Local Open Scope string_scope.
Local Open Scope nat_scope.
Local Open Scope list_scope.

(** ** Characters *)

Definition code (c : ascii) : nat := nat_of_ascii c.

Definition is_upper (c : ascii) : bool := (65 <=? code c) && (code c <=? 90).
Definition is_lower (c : ascii) : bool := (97 <=? code c) && (code c <=? 122).
Definition is_digit (c : ascii) : bool := (48 <=? code c) && (code c <=? 57).

(** [str.lower] on one ASCII character; it is [str.lower] on a text whose
    characters are all ASCII, and the case folding of [re.IGNORECASE] on
    such a text. *)
Definition lower_char (c : ascii) : ascii :=
  if is_upper c then ascii_of_nat (code c + 32) else c.

(** [str.lower]. *)
Definition lower (s : list ascii) : list ascii := map lower_char s.

(** The class [[A-Za-z0-9']] of [WORD_RE]. *)
Definition is_token_char (c : ascii) : bool :=
  is_upper c || is_lower c || is_digit c || (code c =? 39).

(** The class [\w] that [\b] of [NEG_RE] is defined by, on ASCII
    characters: letters, digits and the underscore. *)
Definition is_w (c : ascii) : bool :=
  is_upper c || is_lower c || is_digit c || (code c =? 95).

(** ** [WORD_RE.findall] and [tokenize] *)

(** The token being read is kept reversed in [acc]. *)
Definition flush (acc : list ascii) : list string :=
  match acc with
  | [] => []
  | _ => [string_of_list_ascii (rev acc)]
  end.

Fixpoint findall_from (acc : list ascii) (s : list ascii) : list string :=
  match s with
  | [] => flush acc
  | c :: s' =>
      if is_token_char c then findall_from (c :: acc) s'
      else flush acc ++ findall_from [] s'
  end.

Definition WORD_RE_findall (s : list ascii) : list string := findall_from [] s.

(** [text or ""]. *)
Definition or_empty (text : option string) : string :=
  match text with
  | Some s => s
  | None => ""
  end.

Definition tokenize (text : option string) : list string :=
  WORD_RE_findall (lower (list_ascii_of_string (or_empty text))).

(** ** [NEG_RE.search] and [has_negation] *)

(** The alternatives of [NEG_RE], in the order of the pattern. *)
Definition NEG_WORDS : list string :=
  [ "no"; "not"; "never"; "none"; "nothing"; "nobody"; "noone"; "can't";
    "cannot"; "won't"; "don't"; "doesn't"; "didn't"; "isn't"; "aren't";
    "wasn't"; "weren't"; "without" ].

Definition is_w_at (c : option ascii) : bool :=
  match c with
  | Some c => is_w c
  | None => false
  end.

(** [\b] at a position, given the character before it and the one after it
    ([None] at either end of the text). *)
Definition word_boundary (prev next : option ascii) : bool :=
  xorb (is_w_at prev) (is_w_at next).

(** A literal under [re.IGNORECASE]: on success, the last character consumed
    and the rest of the text. *)
Fixpoint match_literal (w : list ascii) (prev : option ascii) (s : list ascii)
  : option (option ascii * list ascii) :=
  match w with
  | [] => Some (prev, s)
  | p :: w' =>
      match s with
      | c :: s' =>
          if Ascii.eqb (lower_char c) (lower_char p)
          then match_literal w' (Some c) s'
          else None
      | [] => None
      end
  end.

(** One alternative followed by the closing [\b]. *)
Definition match_alternative (prev : option ascii) (s : list ascii) (w : string) : bool :=
  match match_literal (list_ascii_of_string w) prev s with
  | Some (last, rest) => word_boundary last (head rest)
  | None => false
  end.

(** The whole pattern tried at one position. *)
Definition NEG_RE_match (prev : option ascii) (s : list ascii) : bool :=
  word_boundary prev (head s) && existsb (match_alternative prev s) NEG_WORDS.

(** [search] tries every start position from left to right. *)
Fixpoint NEG_RE_search (prev : option ascii) (s : list ascii) : bool :=
  NEG_RE_match prev s ||
  match s with
  | [] => false
  | c :: s' => NEG_RE_search (Some c) s'
  end.

Definition has_negation (text : option string) : bool :=
  NEG_RE_search None (list_ascii_of_string (or_empty text)).

(** ** [length_bucket] *)

Definition length_bucket (text : option string) : string :=
  let n := length (tokenize text) in
  if n <=? 5 then "short(<=5)"
  else if n <=? 15 then "medium(6-15)"
  else "long(>15)".

(** ** [jaccard_overlap] and [overlap_bucket] *)

(** [set(tokenize(text))]. *)
Definition token_set (text : option string) : gset string :=
  list_to_set (tokenize text).

Definition jaccard_overlap (a b : option string) : Q :=
  let sa := token_set a in
  let sb := token_set b in
  if (size sa =? 0) && (size sb =? 0) then 0%Q
  else (Z.of_nat (size (sa ∩ sb)) # Pos.of_nat (size (sa ∪ sb)))%Q.

Definition overlap_bucket (premise hypothesis : option string) : string :=
  let j := jaccard_overlap premise hypothesis in
  if Qle_bool (1 # 2) j then "high(>=0.5)"
  else if Qle_bool (1 # 5) j then "mid(0.2-0.5)"
  else "low(<0.2)".

(** ** Rows of the prediction file *)

(** One field of a JSON object: the key is absent, holds [null], or holds a
    value. *)
Inductive field (A : Type) : Type :=
  | Absent
  | Null
  | Val (a : A).
Arguments Absent {A}.
Arguments Null {A}.
Arguments Val {A} a.

Record row : Type := Row {
  premise : field string;
  hypothesis : field string;
  label : field Z;
  predicted_label : field Z
}.

(** [r.get(key, default)]; Python's [None] is [None]. *)
Definition get {A : Type} (f : field A) (default : option A) : option A :=
  match f with
  | Absent => default
  | Null => None
  | Val a => Some a
  end.

(** ** The command line *)

Record args : Type := Args {
  pred_file : string;
  show_examples : bool;
  examples_per_slice : Z
}.

(** ** Counters *)

(** [c[k]] of a [Counter]: a missing key reads as 0. *)
Definition count `{Countable K} (c : gmap K nat) (k : K) : nat :=
  default 0 (c !! k).

(** [c[k] += n]. *)
Definition incr `{Countable K} (c : gmap K nat) (k : K) (n : nat) : gmap K nat :=
  <[k := count c k + n]> c.

(** [int(b)]. *)
Definition int_of_bool (b : bool) : nat := if b then 1 else 0.

(** ** The aggregation loop of [main] *)

Record state : Type := State {
  total : nat;
  correct : nat;
  slice_tot : gmap string nat;
  slice_cor : gmap string nat;
  slice_errs : gmap string (list row);
  conf : gmap (Z * Z) nat
}.

Definition init : state :=
  {| total := 0; correct := 0; slice_tot := ∅; slice_cor := ∅;
     slice_errs := ∅; conf := ∅ |}.

(** The body of [for s in slices].  Evaluating [len(slice_errs[s])] on a
    [defaultdict(list)] creates the entry when it is missing. *)
Definition add_slice (a : args) (r : row) (is_correct : bool)
    (st : state) (s : string) : state :=
  let errs :=
    if negb is_correct && show_examples a then
      let l := default [] (slice_errs st !! s) in
      if (Z.of_nat (length l) <? examples_per_slice a)%Z
      then <[s := l ++ [r]]> (slice_errs st)
      else <[s := l]> (slice_errs st)
    else slice_errs st in
  {| total := total st;
     correct := correct st;
     slice_tot := incr (slice_tot st) s 1;
     slice_cor := incr (slice_cor st) s (int_of_bool is_correct);
     slice_errs := errs;
     conf := conf st |}.

(** The three slice keys of one example. *)
Definition slices_of (prem hyp : option string) : list string :=
  let neg := if has_negation hyp then "negation" else "no_negation" in
  let lb := length_bucket hyp in
  let ob := overlap_bucket prem hyp in
  [ "NEG::" +:+ neg; "LEN::" +:+ lb; "OVL::" +:+ ob ].

(** The body of [for r in rows]. *)
Definition process_row (a : args) (st : state) (r : row) : state :=
  let prem := get (premise r) (Some "") in
  let hyp := get (hypothesis r) (Some "") in
  let gold := get (label r) None in
  let pred := get (predicted_label r) None in
  match gold, pred with
  | Some g, Some p =>
      let is_correct := (g =? p)%Z in
      let st' :=
        {| total := total st + 1;
           correct := correct st + int_of_bool is_correct;
           slice_tot := slice_tot st;
           slice_cor := slice_cor st;
           slice_errs := slice_errs st;
           conf := incr (conf st) (g, p) 1 |} in
      foldl (add_slice a r is_correct) st' (slices_of prem hyp)
  | _, _ => st
  end.

Definition run (a : args) (rows : list row) : state :=
  foldl (process_row a) init rows.

(** ** The report of [main] *)

(** What [main] prints, one constructor per [print] that carries data; the
    rules under the titles and the blank lines are left out, and numbers are
    kept as values rather than formatted. *)
Inductive line : Type :=
  | LFile (path : string)
  | LScored (n : nat)
  | LAccuracy (acc : Q)
  | LTitle (title : string)
  | LSlice (k : string) (n : nat) (pct acc : Q)
  | LErrorsOf (k : string) (acc : Q)
  | LError (ex : row).

Inductive exn : Type :=
  | ZeroDivisionError.

(** A computation that prints and may raise: the lines printed so far, and
    either a value or the exception that ended it. *)
Inductive res (A : Type) : Type :=
  | Ok (out : list line) (v : A)
  | Raise (out : list line) (e : exn).
Arguments Ok {A} out v.
Arguments Raise {A} out e.

#[global] Instance res_ret : MRet res := λ A v, Ok [] v.

#[global] Instance res_bind : MBind res := λ A B f m,
  match m with
  | Ok out v =>
      match f v with
      | Ok out' w => Ok (out ++ out') w
      | Raise out' e => Raise (out ++ out') e
      end
  | Raise out e => Raise out e
  end.

Definition print (l : line) : res unit := Ok [l] tt.

(** [a / b] on two counts. *)
Definition div (a b : nat) : res Q :=
  if b =? 0 then Raise [] ZeroDivisionError
  else Ok [] (Z.of_nat a # Pos.of_nat b)%Q.

Fixpoint mapM {A B : Type} (f : A → res B) (l : list A) : res (list B) :=
  match l with
  | [] => mret []
  | x :: l' => y ← f x; ys ← mapM f l'; mret (y :: ys)
  end.

Fixpoint forM_ {A : Type} (l : list A) (f : A → res unit) : res unit :=
  match l with
  | [] => mret tt
  | x :: l' => f x;; forM_ l' f
  end.

(** A stable sort, as [list.sort] and [sorted] are. *)
Fixpoint insert_by {A : Type} (le : A → A → bool) (x : A) (l : list A) : list A :=
  match l with
  | [] => [x]
  | y :: l' => if le x y then x :: y :: l' else y :: insert_by le x l'
  end.

Definition sort_by {A : Type} (le : A → A → bool) (l : list A) : list A :=
  foldr (insert_by le) [] l.

Definition item : Type := string * nat * Q.

(** Order of the key [(-x[1], x[0])]. *)
Definition coverage_le (x y : item) : bool :=
  let '(kx, nx, _) := x in
  let '(ky, ny, _) := y in
  (ny <? nx) || ((nx =? ny) && String.leb kx ky).

(** Order of the key [x[2]]. *)
Definition acc_le (x y : item) : bool :=
  Qle_bool x.2 y.2.

Definition print_group (a : args) (st : state) (pfx title : string) : res unit :=
  items ← mapM (λ '(k, n), acc ← div (count (slice_cor st) k) n; mret (k, n, acc))
               (filter (λ kn, String.prefix pfx kn.1 = true) (map_to_list (slice_tot st)));
  let items := sort_by coverage_le items in
  print (LTitle title);;
  forM_ items (λ '(k, n, acc),
    pct ← div (100 * n) (total st);
    print (LSlice k n pct acc));;
  if show_examples a then
    forM_ (take 1 (sort_by acc_le items)) (λ '(k, n, acc),
      let errs := default [] (slice_errs st !! k) in
      if length errs =? 0 then mret tt
      else
        print (LErrorsOf k acc);;
        forM_ errs (λ ex, print (LError ex)))
  else mret tt.

(** [main] after the rows are read, up to the three slice tables; the
    closing table of confusions, which only reads [conf], is embedded apart
    as [print_confusions]. *)
Definition main (a : args) (rows : list row) : res unit :=
  let st := run a rows in
  print (LFile (pred_file a));;
  print (LScored (total st));;
  acc ← div (correct st) (total st);
  print (LAccuracy acc);;
  print_group a st "NEG::" "Negation slices (hypothesis)";;
  print_group a st "LEN::" "Hypothesis length buckets";;
  print_group a st "OVL::" "Lexical overlap buckets (Jaccard)".

(** ** Notions used to state the properties *)

(** The labels [main] reads from a row. *)
Definition gold (r : row) : option Z := get (label r) None.
Definition pred (r : row) : option Z := get (predicted_label r) None.

(** A row is scored when neither label is [None]. *)
Definition scored (r : row) : bool :=
  match gold r, pred r with
  | Some _, Some _ => true
  | _, _ => false
  end.

(** A row is scored with the labels [(g, p)]. *)
Definition scored_as (g p : Z) (r : row) : bool :=
  match gold r, pred r with
  | Some g', Some p' => (g' =? g)%Z && (p' =? p)%Z
  | _, _ => false
  end.

(** The sum of all counts of a counter. *)
Definition sum_counts `{Countable K} (c : gmap K nat) : nat :=
  sum_list ((map_to_list c).*2).

(** The keys of one dimension are those [print_group] selects by prefix. *)
Definition in_dimension (pfx : string) (kn : string * nat) : Prop :=
  String.prefix pfx kn.1 = true.

#[global] Instance in_dimension_dec pfx kn : Decision (in_dimension pfx kn).
Proof. unfold in_dimension. apply _. Defined.

(** The tags of the three dimensions. *)
Definition dimensions : list string := [ "NEG::"; "LEN::"; "OVL::" ].

(** The sum of the per-bucket totals of one dimension. *)
Definition dimension_total (pfx : string) (st : state) : nat :=
  sum_counts (filter (in_dimension pfx) (slice_tot st)).

(** A negation token occurring as a whole word: the text splits as
    [pre ++ w ++ post] where [w] is, letter case apart, one of the negation
    tokens, and neither the character before [w] nor the one after it is a
    word character (a letter, a digit or the underscore). *)
Definition negation_token (w : list ascii) : Prop :=
  string_of_list_ascii (lower w) ∈ NEG_WORDS.

Definition whole_word_negation (s : list ascii) : Prop :=
  ∃ pre w post,
    s = pre ++ w ++ post ∧ negation_token w ∧
    is_w_at (last pre) = false ∧ is_w_at (head post) = false.

(** The character before a position, given the character before the text
    and the part of the text before the position. *)
Definition last_or (prev : option ascii) (m : list ascii) : option ascii :=
  match last m with
  | Some c => Some c
  | None => prev
  end.

(** An alternative of [NEG_RE] is in lower case and starts and ends with a
    word character, so that both [\b] of the pattern ask for a character
    that is not a word character, or for an end of the text. *)
Definition well_shaped (w : string) : bool :=
  let l := list_ascii_of_string w in
  bool_decide (lower l = l) && is_w_at (head l) && is_w_at (last l).

(** ** Further notions: tokens and texts *)

(** A text of ASCII characters only. *)
Definition is_ascii (c : ascii) : bool := code c <? 128.

Definition ascii_text (s : string) : Prop :=
  forallb is_ascii (list_ascii_of_string s) = true.

(** The number of words of a text: the number of places where a run of
    letters, digits and apostrophes begins.  [inside] tells whether the
    character before is one of them. *)
Fixpoint word_starts (inside : bool) (s : list ascii) : nat :=
  match s with
  | [] => 0
  | c :: s' =>
      (if is_token_char c && negb inside then 1 else 0)
      + word_starts (is_token_char c) s'
  end.

Definition word_count (s : string) : nat :=
  word_starts false (list_ascii_of_string s).

(** What a token is made of: a lower-case letter, a digit or an apostrophe. *)
Definition is_lower_token_char (c : ascii) : bool :=
  is_lower c || is_digit c || (code c =? 39).

(** [s.lower()] on a string. *)
Definition lower_string (s : string) : string :=
  string_of_list_ascii (lower (list_ascii_of_string s)).

(** A word that [WORD_RE] reads as one token: not empty, token characters
    only. *)
Definition is_word (w : string) : Prop :=
  w ≠ "" ∧ forallb is_token_char (list_ascii_of_string w) = true.

(** ** Further notions: rows and buckets *)

(** The three slice keys [main] computes for a row. *)
Definition row_slices (r : row) : list string :=
  slices_of (get (premise r) (Some "")) (get (hypothesis r) (Some "")).

(** A scored row with equal labels, and one with different labels. *)
Definition is_right (r : row) : bool :=
  match gold r, pred r with
  | Some g, Some p => (g =? p)%Z
  | _, _ => false
  end.

Definition is_wrong (r : row) : bool :=
  match gold r, pred r with
  | Some g, Some p => negb (g =? p)%Z
  | _, _ => false
  end.

(** A scored row that falls in the bucket [k]. *)
Definition in_slice (k : string) (r : row) : bool :=
  scored r && bool_decide (k ∈ row_slices r).

(** The sum of the per-bucket correct counts of one dimension. *)
Definition dimension_correct (pfx : string) (st : state) : nat :=
  sum_counts (filter (in_dimension pfx) (slice_cor st)).

(** The eight keys a slice counter can hold. *)
Definition slice_keys : list string :=
  [ "NEG::negation"; "NEG::no_negation";
    "LEN::short(<=5)"; "LEN::medium(6-15)"; "LEN::long(>15)";
    "OVL::high(>=0.5)"; "OVL::mid(0.2-0.5)"; "OVL::low(<0.2)" ].

(** [slice_errs[k]] read without creating the entry. *)
Definition errors_of (st : state) (k : string) : list row :=
  default [] (slice_errs st !! k).

(** ** Further notions: the lines of the report *)

(** The entry [print_group] computes for a bucket and its total. *)
Definition group_item (st : state) (kn : string * nat) : item :=
  (kn.1, kn.2, (Z.of_nat (count (slice_cor st) kn.1) # Pos.of_nat kn.2)%Q).

(** The entries of one dimension, in the order [print_group] prints them. *)
Definition group_items (st : state) (pfx : string) : list item :=
  sort_by coverage_le
    (map (group_item st)
       (filter (λ kn, String.prefix pfx kn.1 = true) (map_to_list (slice_tot st)))).

(** The line of one entry. *)
Definition item_line (st : state) (x : item) : line :=
  LSlice x.1.1 x.1.2 (Z.of_nat (100 * x.1.2) # Pos.of_nat (total st))%Q x.2.

(** The examples shown under a table. *)
Definition error_lines (a : args) (st : state) (items : list item) : list line :=
  if show_examples a then
    match sort_by acc_le items with
    | x :: _ =>
        if length (errors_of st x.1.1) =? 0 then []
        else LErrorsOf x.1.1 x.2 :: map LError (errors_of st x.1.1)
    | [] => []
    end
  else [].

(** The lines of one table. *)
Definition group_lines (a : args) (st : state) (pfx title : string) : list line :=
  LTitle title :: map (item_line st) (group_items st pfx)
    ++ error_lines a st (group_items st pfx).

(** The whole report, when there is a scored row. *)
Definition report (a : args) (st : state) : list line :=
  [ LFile (pred_file a); LScored (total st);
    LAccuracy (Z.of_nat (correct st) # Pos.of_nat (total st))%Q ]
  ++ group_lines a st "NEG::" "Negation slices (hypothesis)"
  ++ group_lines a st "LEN::" "Hypothesis length buckets"
  ++ group_lines a st "OVL::" "Lexical overlap buckets (Jaccard)".

(** ** [fmt_label] *)

(** [str(x)] of an integer. *)
Definition str (x : Z) : string := NilZero.string_of_int (Z.to_int x).

(** [fmt_label] on an integer label. *)
Definition fmt_label (x : Z) (id2name : gmap Z string) : string :=
  match id2name !! x with
  | Some name => str x +:+ " (" +:+ name +:+ ")"
  | None => str x
  end.

(** ** The table of confusions *)

(** [conf] as the ordered dictionary a [Counter] is: [c[k] += 1] keeps the
    place of a key that is present and puts a new key last. *)
Fixpoint ordered_incr (c : list (Z * Z * nat)) (k : Z * Z) : list (Z * Z * nat) :=
  match c with
  | [] => [(k, 1)]
  | (k', n) :: c' =>
      if decide (k' = k) then (k', n + 1) :: c' else (k', n) :: ordered_incr c' k
  end.

(** [conf.items()] when the loop of [main] ends. *)
Definition conf_items (rows : list row) : list (Z * Z * nat) :=
  foldl (λ c r,
           match get (label r) None, get (predicted_label r) None with
           | Some g, Some p => ordered_incr c (g, p)
           | _, _ => c
           end) [] rows.

(** Order of the key [-x[1]]. *)
Definition count_ge (x y : Z * Z * nat) : bool := y.2 <=? x.2.

(** [bad], sorted. *)
Definition bad_confusions (items : list (Z * Z * nat)) : list (Z * Z * nat) :=
  sort_by count_ge (List.filter (λ x, negb (x.1.1 =? x.1.2)%Z) items).

(** [l[:n]]: a negative [n] counts from the end. *)
Definition slice_to {A : Type} (n : Z) (l : list A) : list A :=
  if (0 <=? n)%Z then take (Z.to_nat n) l
  else take (length l - Z.to_nat (- n)) l.

(** One line of the table: the two formatted labels and the count. *)
Record confusion_line : Type := ConfusionLine {
  gold_text : string;
  pred_text : string;
  times : nat
}.

(** The lines printed under [if args.show_confusions]. *)
Definition print_confusions (show_confusions : bool) (top_confusions : Z)
    (id2name : gmap Z string) (items : list (Z * Z * nat)) : list confusion_line :=
  if show_confusions then
    map (λ x, ConfusionLine (fmt_label x.1.1 id2name) (fmt_label x.1.2 id2name) x.2)
        (slice_to top_confusions (bad_confusions items))
  else [].

(** [c.get(k)] of the ordered counter. *)
Fixpoint ordered_lookup (c : list (Z * Z * nat)) (k : Z * Z) : option nat :=
  match c with
  | [] => None
  | (k', n) :: c' => if decide (k' = k) then Some n else ordered_lookup c' k
  end.

(** ** [parse_label_map] *)

(** The ASCII characters [str.strip] removes and [int] skips; on an ASCII
    text they are all that these remove. *)
Definition is_space (c : ascii) : bool :=
  ((9 <=? code c) && (code c <=? 13)) || ((28 <=? code c) && (code c <=? 32)).

Fixpoint lstrip (s : list ascii) : list ascii :=
  match s with
  | c :: s' => if is_space c then lstrip s' else s
  | [] => []
  end.

(** [s.strip()]. *)
Definition strip (s : list ascii) : list ascii :=
  rev (lstrip (rev (lstrip s))).

(** [s.split(sep)] for a separator of one character. *)
Fixpoint split (sep : ascii) (s : list ascii) : list (list ascii) :=
  match s with
  | [] => [[]]
  | c :: s' =>
      if Ascii.eqb c sep then [] :: split sep s'
      else
        match split sep s' with
        | p :: ps => (c :: p) :: ps
        | [] => [[c]]
        end
  end.

(** The digits of a decimal literal: digits, with single underscores allowed
    between two of them. *)
Fixpoint int_digits (after_digit : bool) (s : list ascii) : option (list ascii) :=
  match s with
  | [] => if after_digit then Some [] else None
  | c :: s' =>
      if is_digit c then cons c <$> int_digits true s'
      else if Ascii.eqb c "_" && after_digit then int_digits false s'
      else None
  end.

Definition int_of_digits (ds : list ascii) : option Z :=
  Z.of_uint <$> NilEmpty.uint_of_string (string_of_list_ascii ds).

(** [int(s)] in base 10 on an ASCII text; [None] stands for [ValueError].
    The bound that recent interpreters put on the length of a literal (4300
    digits unless configured, never less than 640) is not part of it: the
    two agree on ASCII texts of at most 640 characters. *)
Definition py_int (s : list ascii) : option Z :=
  match strip s with
  | [] => None
  | c :: s' =>
      if Ascii.eqb c "-" then Z.opp <$> (int_digits false s' ≫= int_of_digits)
      else if Ascii.eqb c "+" then int_digits false s' ≫= int_of_digits
      else int_digits false (c :: s') ≫= int_of_digits
  end.

(** The loop of [parse_label_map] over the parts; [None] stands for the
    [ValueError] of the unpacking or of [int]. *)
Fixpoint parse_parts (out : gmap Z string) (parts : list (list ascii))
  : option (gmap Z string) :=
  match parts with
  | [] => Some out
  | part :: rest =>
      match strip part with
      | [] => parse_parts out rest
      | part' =>
          match split ":" part' with
          | [k; v] =>
              match py_int (strip k) with
              | Some n => parse_parts (<[n := string_of_list_ascii (strip v)]> out) rest
              | None => None
              end
          | _ => None
          end
      end
  end.

Definition parse_label_map (s : option string) : option (gmap Z string) :=
  parse_parts ∅ (split "," (list_ascii_of_string (or_empty s))).

(** A label map written out: [k:v] entries with commas between them. *)
Definition format_entry (kv : Z * string) : string := str kv.1 +:+ ":" +:+ kv.2.

Definition format_label_map (l : list (Z * string)) : string :=
  String.concat "," (map format_entry l).

(** A name that is read back as it is written: no comma, no colon, no white
    space at either end. *)
Definition clean_name (v : string) : Prop :=
  let l := list_ascii_of_string v in
  (","%char ∉ l) ∧ (":"%char ∉ l) ∧ strip l = l.

(** Digits in groups, with one underscore between two groups. *)
Inductive digit_groups : list ascii → Prop :=
  | digit_last (d : ascii) :
      is_digit d = true → digit_groups [d]
  | digit_next (d : ascii) (s : list ascii) :
      is_digit d = true → digit_groups s → digit_groups (d :: s)
  | digit_underscore (d : ascii) (s : list ascii) :
      is_digit d = true → digit_groups s → digit_groups (d :: "_"%char :: s).

(** A decimal literal: an optional sign, then digits in groups. *)
Definition int_literal (s : list ascii) : Prop :=
  ∃ body, (s = body ∨ s = "+"%char :: body ∨ s = "-"%char :: body) ∧
          digit_groups body.

(** An entry [parse_label_map] accepts: blank, or, white space at its ends
    apart, a key and a name with exactly one colon between them, where the
    key, white space apart, is a decimal literal. *)
Definition entry_ok (part : list ascii) : Prop :=
  strip part = [] ∨
  ∃ k v, strip part = k ++ ":"%char :: v ∧ (":"%char ∉ k) ∧ (":"%char ∉ v) ∧
         int_literal (strip k).

(** ** The whole of [main] *)

Inductive error : Type :=
  | ValueError
  | ZeroDivision.

(** How the program ends: what it printed, and the exception if one was
    raised.  The rows stand for the file as read. *)
Inductive outcome : Type :=
  | Finished (out : list line) (confusions : list confusion_line)
  | Failed (out : list line) (e : error).

(** [main] with its label map and its table of confusions: the map is
    parsed first, the table is printed last. *)
Definition main_with_confusions (label_map : option string)
    (show_confusions : bool) (top_confusions : Z)
    (a : args) (rows : list row) : outcome :=
  match parse_label_map label_map with
  | None => Failed [] ValueError
  | Some id2name =>
      match main a rows with
      | Raise out ZeroDivisionError => Failed out ZeroDivision
      | Ok out _ =>
          Finished out
            (print_confusions show_confusions top_confusions id2name (conf_items rows))
      end
  end.

(** ** Further notions: tokens in a text *)

Definition is_token_at (c : option ascii) : bool :=
  from_option is_token_char false c.

(** [w] is a maximal run of token characters of the text [l]. *)
Definition token_run (l w : list ascii) : Prop :=
  ∃ pre post,
    l = pre ++ w ++ post ∧ w ≠ [] ∧ forallb is_token_char w = true ∧
    is_token_at (last pre) = false ∧ is_token_at (head post) = false.

(** * Properties *)

(** ** Sanity checks of the classifiers *)

Example ex_tokenize :
  tokenize (Some "A man isn't RUNNING, no_way 42!") =
  ["a"; "man"; "isn't"; "running"; "no"; "way"; "42"].
Proof. reflexivity. Qed.

Example ex_negation_1 : has_negation (Some "A man is not running") = true.
Proof. reflexivity. Qed.
Example ex_negation_2 : has_negation (Some "A man is running") = false.
Proof. reflexivity. Qed.
Example ex_negation_3 : has_negation (Some "Nothing") = true.
Proof. reflexivity. Qed.
Example ex_negation_4 : has_negation (Some "knot another note") = false.
Proof. reflexivity. Qed.
Example ex_negation_5 : has_negation (Some "no_way") = false.
Proof. reflexivity. Qed.
Example ex_negation_6 : has_negation (Some "He CAN'T swim") = true.
Proof. reflexivity. Qed.
Example ex_negation_7 : has_negation (Some "a not-for-profit shop") = true.
Proof. reflexivity. Qed.
Example ex_jaccard : jaccard_overlap (Some "A man is not running") (Some "A man is running") = (4 # 5)%Q.
Proof. vm_compute. reflexivity. Qed.
Example ex_overlap : overlap_bucket (Some "A man is not running") (Some "A man is running") = "high(>=0.5)".
Proof. vm_compute. reflexivity. Qed.

(** ** [has_negation] finds whole-word negation tokens *)

Section Negation.

Lemma is_w_lower_char c : is_w (lower_char c) = is_w c.
Proof. by destruct c as [[] [] [] [] [] [] [] []]. Qed.

Lemma last_or_cons prev c m : last_or prev (c :: m) = last_or (Some c) m.
Proof.
  unfold last_or. rewrite last_cons. by destruct (last m).
Qed.

Lemma match_literal_split w prev s lst rest :
  match_literal w prev s = Some (lst, rest) ↔
  ∃ m, s = m ++ rest ∧ lower m = lower w ∧ lst = last_or prev m.
Proof.
  revert prev s. induction w as [|p w IH]; intros prev s; simpl.
  - split.
    + intros [= <- <-]. by exists [].
    + intros ([|c m] & -> & Hm & ->); [done | discriminate].
  - destruct s as [|c s].
    + split; [done|]. intros ([|c m] & Hs & Hm & _); discriminate.
    + destruct (Ascii.eqb_spec (lower_char c) (lower_char p)) as [Hc|Hc].
      * rewrite IH. split.
        -- intros (m & -> & Hm & ->). exists (c :: m).
           split; [done|]. split; [simpl; congruence|].
           by rewrite last_or_cons.
        -- intros ([|c' m] & Hs & Hm & ->); [discriminate|].
           simpl in Hs, Hm. injection Hs as <- ->. injection Hm as _ Hm.
           exists m. by rewrite last_or_cons.
      * split; [done|]. intros ([|c' m] & Hs & Hm & _); [discriminate|].
        simpl in Hs, Hm. injection Hs as <- ->. by injection Hm as ? _.
Qed.

Lemma NEG_WORDS_well_shaped w : w ∈ NEG_WORDS → well_shaped w = true.
Proof.
  intros Hw. assert (H : forallb well_shaped NEG_WORDS = true) by reflexivity.
  rewrite forallb_forall in H. apply H. by apply list_elem_of_In.
Qed.

Lemma is_w_at_head_lower m : is_w_at (head (lower m)) = is_w_at (head m).
Proof. destruct m as [|c m]; [done|]. apply is_w_lower_char. Qed.

Lemma last_lower m : last (lower m) = lower_char <$> last m.
Proof.
  induction m as [|c m IH]; [done|].
  change (lower (c :: m)) with (lower_char c :: lower m).
  rewrite !last_cons, IH. by destruct (last m).
Qed.

Lemma is_w_at_last_lower m : is_w_at (last (lower m)) = is_w_at (last m).
Proof.
  rewrite last_lower. destruct (last m); [apply is_w_lower_char | done].
Qed.

(** A word that matches a negation token starts and ends with a word
    character. *)
Lemma negation_token_ends m :
  negation_token m → is_w_at (head m) = true ∧ is_w_at (last m) = true.
Proof.
  intros Hm. apply NEG_WORDS_well_shaped in Hm. unfold well_shaped in Hm.
  rewrite list_ascii_of_string_of_list_ascii in Hm.
  apply andb_true_iff in Hm as [Hm Hl]. apply andb_true_iff in Hm as [_ Hh].
  by rewrite is_w_at_head_lower in Hh; rewrite is_w_at_last_lower in Hl.
Qed.

Lemma match_alternative_split prev s w :
  w ∈ NEG_WORDS →
  match_alternative prev s w = true ↔
  ∃ m rest, s = m ++ rest ∧ string_of_list_ascii (lower m) = w ∧
            is_w_at (head rest) = false.
Proof.
  intros Hw. pose proof (NEG_WORDS_well_shaped _ Hw) as Hs.
  unfold well_shaped in Hs.
  apply andb_true_iff in Hs as [Hs _]. apply andb_true_iff in Hs as [Hlw _].
  apply bool_decide_eq_true in Hlw.
  unfold match_alternative. split.
  - destruct (match_literal _ prev s) as [[lst rest]|] eqn:E; [|done].
    apply match_literal_split in E as (m & -> & Hm & ->).
    intros Hb. exists m, rest. split; [done|].
    rewrite Hlw in Hm.
    assert (Hw' : string_of_list_ascii (lower m) = w)
      by (rewrite Hm; apply string_of_list_ascii_of_string).
    split; [done|].
    assert (Hn : negation_token m) by (unfold negation_token; by rewrite Hw').
    apply negation_token_ends in Hn as [_ Hl].
    unfold last_or, word_boundary in Hb.
    destruct (last m) as [c|]; [|done]. simpl in Hl, Hb.
    rewrite Hl in Hb. by destruct (is_w_at (head rest)).
  - intros (m & rest & -> & Hm & Hr).
    assert (Hn : negation_token m) by (unfold negation_token; by rewrite Hm).
    apply negation_token_ends in Hn as [_ Hl].
    assert (E : match_literal (list_ascii_of_string w) prev (m ++ rest)
                = Some (last_or prev m, rest)).
    { apply match_literal_split. exists m. split; [done|]. split; [|done].
      rewrite Hlw, <- Hm. by rewrite list_ascii_of_string_of_list_ascii. }
    rewrite E. unfold last_or, word_boundary.
    destruct (last m) as [c|]; [|done]. simpl in Hl |- *.
    by rewrite Hl, Hr.
Qed.

Lemma NEG_RE_match_split prev s :
  NEG_RE_match prev s = true ↔
  is_w_at prev = false ∧
  ∃ m rest, s = m ++ rest ∧ negation_token m ∧ is_w_at (head rest) = false.
Proof.
  unfold NEG_RE_match. rewrite andb_true_iff, existsb_exists. split.
  - intros [Hb (w & Hw & Hm)]. apply list_elem_of_In in Hw.
    apply (match_alternative_split _ _ _ Hw) in Hm as (m & rest & -> & Hm & Hr).
    assert (Hn : negation_token m) by (unfold negation_token; by rewrite Hm).
    pose proof (negation_token_ends _ Hn) as [Hh _].
    split; [|by exists m, rest].
    unfold word_boundary in Hb.
    destruct m as [|c m]; [done|]. simpl in Hb, Hh. rewrite Hh in Hb.
    by destruct (is_w_at prev).
  - intros [Hp (m & rest & -> & Hn & Hr)].
    pose proof (negation_token_ends _ Hn) as [Hh _].
    split.
    + unfold word_boundary. destruct m as [|c m]; [done|].
      simpl in Hh |- *. by rewrite Hp, Hh.
    + exists (string_of_list_ascii (lower m)).
      split; [by apply list_elem_of_In|].
      apply match_alternative_split; [done|]. by exists m, rest.
Qed.

Lemma NEG_RE_search_split prev s :
  NEG_RE_search prev s = true ↔
  ∃ pre w post,
    s = pre ++ w ++ post ∧ negation_token w ∧
    is_w_at (last_or prev pre) = false ∧ is_w_at (head post) = false.
Proof.
  revert prev. induction s as [|c s IH]; intros prev.
  - simpl. rewrite orb_false_r, NEG_RE_match_split. split.
    + intros [Hp (m & rest & Hs & Hn & Hr)]. by exists [], m, rest.
    + intros (pre & w & post & Hs & Hn & Hp & Hr).
      destruct pre as [|d pre]; [|discriminate]. split; [done|].
      by exists w, post.
  - simpl. rewrite orb_true_iff, NEG_RE_match_split, IH. split.
    + intros [[Hp (m & rest & Hs & Hn & Hr)]|(pre & w & post & -> & Hn & Hp & Hr)].
      * by exists [], m, rest.
      * exists (c :: pre), w, post. by rewrite last_or_cons.
    + intros (pre & w & post & Hs & Hn & Hp & Hr).
      destruct pre as [|d pre].
      * left. split; [done|]. by exists w, post.
      * right. simpl in Hs. injection Hs as <- ->.
        exists pre, w, post. by rewrite last_or_cons in Hp.
Qed.

End Negation.



(** ** The length and overlap tiers *)

Section WordCount.

Lemma is_token_char_lower c : is_token_char (lower_char c) = is_token_char c.
Proof. by destruct c as [[] [] [] [] [] [] [] []]. Qed.

Lemma word_starts_lower (inside : bool) (l : list ascii) :
  word_starts inside (lower l) = word_starts inside l.
Proof.
  revert inside. induction l as [|c l IH]; intros inside; [done|].
  simpl. by rewrite is_token_char_lower, IH.
Qed.

(** [findall] yields one token for the run being read, if any, and one for
    each run that begins later. *)
Lemma length_findall_from (acc l : list ascii) :
  length (findall_from acc l) =
  length (flush acc) + word_starts (negb (bool_decide (acc = []))) l.
Proof.
  revert acc. induction l as [|c l IH]; intros acc; simpl.
  - lia.
  - destruct (is_token_char c) eqn:Hc; simpl.
    + rewrite IH. destruct acc; simpl; lia.
    + rewrite length_app, IH. simpl. lia.
Qed.

Lemma length_tokenize (s : string) : length (tokenize (Some s)) = word_count s.
Proof.
  unfold tokenize, WORD_RE_findall, word_count. simpl or_empty.
  rewrite length_findall_from. simpl. apply word_starts_lower.
Qed.

End WordCount.

(** C6. [length_bucket] yields one of three tiers, fixed by the number [n]
    of tokens of the text: short exactly when [n <= 5], medium exactly when
    [6 <= n <= 15], long exactly when [n > 15].  On an ASCII text [n] is
    the number of its words, the runs of letters, digits and apostrophes;
    on [None] it is 0. *)
Theorem length_bucket_tiers (text : option string) :
  let n := length (tokenize text) in
  (length_bucket text = "short(<=5)" ↔ n ≤ 5) ∧
  (length_bucket text = "medium(6-15)" ↔ 6 ≤ n ≤ 15) ∧
  (length_bucket text = "long(>15)" ↔ 15 < n) ∧
  (∀ s, text = Some s → ascii_text s → n = word_count s) ∧
  (text = None → n = 0).
Proof.
  intros n. unfold length_bucket. fold n.
  split; [|split; [|split; [|split]]].
  - destruct (Nat.leb_spec n 5), (Nat.leb_spec n 15);
      split; intros; try discriminate; try lia; done.
  - destruct (Nat.leb_spec n 5), (Nat.leb_spec n 15);
      split; intros; try discriminate; try lia; done.
  - destruct (Nat.leb_spec n 5), (Nat.leb_spec n 15);
      split; intros; try discriminate; try lia; done.
  - intros s -> _. apply length_tokenize.
  - by intros ->.
Qed.

(** C6 at texts of five, seven and sixteen words. *)
Lemma length_bucket_tiers_witness :
  (length (tokenize (Some "A man isn't running today")) = 5 ∧
   length_bucket (Some "A man isn't running today") = "short(<=5)") ∧
  (length (tokenize (Some "The old man is not at home")) = 7 ∧
   length_bucket (Some "The old man is not at home") = "medium(6-15)") ∧
  (length (tokenize (Some "a b c d e f g h i j k l m n o p")) = 16 ∧
   length_bucket (Some "a b c d e f g h i j k l m n o p") = "long(>15)").
Proof.
  split; [|split].
  - destruct (length_bucket_tiers (Some "A man isn't running today"))
      as (Hshort & _ & _ & Hn & _).
    pose proof (Hn _ eq_refl eq_refl) as Hc. split; [exact Hc|].
    apply Hshort. rewrite Hc. vm_compute. lia.
  - destruct (length_bucket_tiers (Some "The old man is not at home"))
      as (_ & Hmedium & _ & Hn & _).
    pose proof (Hn _ eq_refl eq_refl) as Hc. split; [exact Hc|].
    apply Hmedium. rewrite Hc. vm_compute. lia.
  - destruct (length_bucket_tiers (Some "a b c d e f g h i j k l m n o p"))
      as (_ & _ & Hlong & Hn & _).
    pose proof (Hn _ eq_refl eq_refl) as Hc. split; [exact Hc|].
    apply Hlong. rewrite Hc. vm_compute. lia.
Defined.

Section Jaccard.

Lemma size_0_empty (s : gset string) : (size s =? 0) = true ↔ s = ∅.
Proof. rewrite Nat.eqb_eq, size_empty_iff. apply leibniz_equiv_iff. Qed.

Lemma Qmake_nat_pos (n : nat) : n ≠ 0 → Z.pos (Pos.of_nat n) = Z.of_nat n.
Proof. intros Hn. rewrite <- (Nat2Pos.id n) at 2 by done. by rewrite positive_nat_Z. Qed.

(** The division of [jaccard_overlap] is never by zero: it is reached
    only when one of the two sets has an element. *)
Lemma jaccard_divisor_nonzero (sa sb : gset string) :
  (size sa =? 0) && (size sb =? 0) = false → size (sa ∪ sb) ≠ 0.
Proof.
  intros Hne Hu. apply size_empty_iff, leibniz_equiv_iff in Hu.
  apply empty_union_L in Hu as [-> ->].
  by rewrite size_empty in Hne.
Qed.

Lemma jaccard_both_empty a b :
  token_set a = ∅ → token_set b = ∅ → jaccard_overlap a b = 0%Q.
Proof. intros Ha Hb. unfold jaccard_overlap. by rewrite Ha, Hb. Qed.

Lemma jaccard_disjoint a b :
  token_set a ## token_set b → (jaccard_overlap a b == 0)%Q.
Proof.
  intros Hd. unfold jaccard_overlap.
  destruct (_ && _); [done|].
  apply disjoint_intersection_L in Hd as ->.
  by rewrite size_empty.
Qed.

End Jaccard.

(** C4. [jaccard_overlap] is symmetric; it is 1 when the two token sets are
    equal and not empty; it is 0 when they are disjoint, which includes the
    case where both are empty. *)
Theorem jaccard_overlap_properties (a b : option string) :
  jaccard_overlap a b = jaccard_overlap b a ∧
  (token_set a = token_set b → token_set a ≠ ∅ → (jaccard_overlap a b == 1)%Q) ∧
  (token_set a ## token_set b → (jaccard_overlap a b == 0)%Q) ∧
  (token_set a = ∅ → token_set b = ∅ →
   token_set a ## token_set b ∧ jaccard_overlap a b = 0%Q).
Proof.
  split; [|split; [|split]].
  - unfold jaccard_overlap.
    by rewrite (comm_L (∩) (token_set a)), (comm_L (∪) (token_set a)), andb_comm.
  - intros Heq Hne. unfold jaccard_overlap. rewrite <- Heq.
    destruct (size_0_empty (token_set a)) as [H0 _].
    destruct (size (token_set a) =? 0) eqn:E; [by destruct Hne; apply H0|].
    simpl. rewrite (idemp_L (∩) (token_set a)), (idemp_L (∪) (token_set a)).
    apply Nat.eqb_neq in E. unfold Qeq. simpl.
    rewrite Qmake_nat_pos by done. lia.
  - apply jaccard_disjoint.
  - intros Ha Hb. split; [|by apply jaccard_both_empty].
    rewrite Ha. apply disjoint_empty_l.
Qed.

(** The hypotheses of C4 at concrete texts: equal token sets, disjoint token
    sets, and two texts without tokens. *)
Lemma jaccard_overlap_properties_witness :
  (jaccard_overlap (Some "No dog") (Some "dog, no!") == 1)%Q ∧
  (jaccard_overlap (Some "a cat") (Some "the dog") == 0)%Q ∧
  jaccard_overlap (Some "") (Some "?!") = 0%Q.
Proof.
  split; [|split].
  - apply (proj1 (proj2 (jaccard_overlap_properties (Some "No dog") (Some "dog, no!")))).
    + by vm_compute.
    + by vm_compute.
  - apply (proj1 (proj2 (proj2 (jaccard_overlap_properties (Some "a cat") (Some "the dog"))))).
    apply (bool_decide_unpack _). by vm_compute.
  - apply (proj2 (proj2 (proj2 (jaccard_overlap_properties (Some "") (Some "?!"))))).
    + by vm_compute.
    + by vm_compute.
Defined.

(** C7. [overlap_bucket] yields one of three tiers, fixed by the Jaccard
    similarity [j] of the two token sets: low exactly when [j < 0.2], mid
    exactly when [0.2 <= j < 0.5], high exactly when [j >= 0.5].  When both
    token sets are empty [j] is 0 and the tier is low; otherwise [j] is the
    number of tokens the two texts share over the number of tokens of
    either.  The token set of a text holds exactly its tokens. *)
Theorem overlap_bucket_tiers (premise hypothesis : option string) :
  let j := jaccard_overlap premise hypothesis in
  (overlap_bucket premise hypothesis = "low(<0.2)" ↔ (j < 1 # 5)%Q) ∧
  (overlap_bucket premise hypothesis = "mid(0.2-0.5)" ↔ (1 # 5 <= j ∧ j < 1 # 2)%Q) ∧
  (overlap_bucket premise hypothesis = "high(>=0.5)" ↔ (1 # 2 <= j)%Q) ∧
  (token_set premise = ∅ → token_set hypothesis = ∅ →
   j = 0%Q ∧ overlap_bucket premise hypothesis = "low(<0.2)") ∧
  (¬ (token_set premise = ∅ ∧ token_set hypothesis = ∅) →
   size (token_set premise ∪ token_set hypothesis) ≠ 0 ∧
   (j == Z.of_nat (size (token_set premise ∩ token_set hypothesis)) #
         Pos.of_nat (size (token_set premise ∪ token_set hypothesis)))%Q) ∧
  (∀ t, t ∈ token_set premise ↔ t ∈ tokenize premise) ∧
  (∀ t, t ∈ token_set hypothesis ↔ t ∈ tokenize hypothesis).
Proof.
  intros j. unfold overlap_bucket. fold j.
  assert (H25 : (1 # 5 < 1 # 2)%Q) by reflexivity.
  split; [|split; [|split; [|split; [|split; [|split]]]]];
    [| | | |
     intros Hne; subst j; unfold jaccard_overlap;
     destruct ((size (token_set premise) =? 0) && (size (token_set hypothesis) =? 0))
       eqn:E;
     [ destruct Hne; apply andb_true_iff in E as [Ea Eb];
       by apply size_0_empty in Ea, Eb
     | split; [by apply jaccard_divisor_nonzero | done] ]
    | intros t; unfold token_set; apply elem_of_list_to_set
    | intros t; unfold token_set; apply elem_of_list_to_set ].
  - destruct (Qle_bool (1 # 2) j) eqn:E2; [|destruct (Qle_bool (1 # 5) j) eqn:E5].
    + apply Qle_bool_iff in E2. split; [done|]. intros Hj.
      exfalso. apply (Qlt_irrefl (1 # 5)). 
      eapply Qlt_trans; [apply H25|]. eapply Qle_lt_trans; eauto.
    + apply Qle_bool_iff in E5. split; [done|]. intros Hj.
      exfalso. apply (Qlt_irrefl j). eapply Qlt_le_trans; eauto.
    + split; [intros _|done]. apply Qnot_le_lt. intros H.
      apply Qle_bool_iff in H. congruence.
  - destruct (Qle_bool (1 # 2) j) eqn:E2; [|destruct (Qle_bool (1 # 5) j) eqn:E5].
    + apply Qle_bool_iff in E2. split; [done|]. intros [_ Hj].
      exfalso. apply (Qlt_irrefl j). eapply Qlt_le_trans; eauto.
    + apply Qle_bool_iff in E5. split; [intros _|done]. split; [done|].
      apply Qnot_le_lt. intros H. apply Qle_bool_iff in H. congruence.
    + split; [done|]. intros [Hj _]. apply Qle_bool_iff in Hj. congruence.
  - destruct (Qle_bool (1 # 2) j) eqn:E2; [|destruct (Qle_bool (1 # 5) j) eqn:E5].
    + apply Qle_bool_iff in E2. done.
    + split; [done|]. intros Hj. apply Qle_bool_iff in Hj. congruence.
    + split; [done|]. intros Hj. apply Qle_bool_iff in Hj. congruence.
  - intros Ha Hb. subst j. by rewrite (jaccard_both_empty _ _ Ha Hb).
Qed.

(** C7 at two texts without tokens, and at pairs of texts that share four
    tokens of five, two of six and one of six. *)
Lemma overlap_bucket_tiers_witness :
  (jaccard_overlap (Some "...") None = 0%Q ∧
   overlap_bucket (Some "...") None = "low(<0.2)") ∧
  ((jaccard_overlap (Some "A man is not running") (Some "A man is running") == 4 # 5)%Q ∧
   overlap_bucket (Some "A man is not running") (Some "A man is running")
   = "high(>=0.5)") ∧
  ((jaccard_overlap (Some "a b c d") (Some "a b e f") == 2 # 6)%Q ∧
   overlap_bucket (Some "a b c d") (Some "a b e f") = "mid(0.2-0.5)") ∧
  ((jaccard_overlap (Some "a b c") (Some "a d e f") == 1 # 6)%Q ∧
   overlap_bucket (Some "a b c") (Some "a d e f") = "low(<0.2)").
Proof.
  split; [|split; [|split]].
  - apply (proj1 (proj2 (proj2 (proj2 (overlap_bucket_tiers (Some "...") None))))).
    + by vm_compute.
    + by vm_compute.
  - destruct (overlap_bucket_tiers (Some "A man is not running") (Some "A man is running"))
      as (_ & _ & Hhigh & _ & Hj & _).
    destruct Hj as [_ Hq]; [apply (bool_decide_unpack _); by vm_compute|].
    split; [rewrite Hq; by vm_compute|].
    apply Hhigh. rewrite Hq. by vm_compute.
  - destruct (overlap_bucket_tiers (Some "a b c d") (Some "a b e f"))
      as (_ & Hmid & _ & _ & Hj & _).
    destruct Hj as [_ Hq]; [apply (bool_decide_unpack _); by vm_compute|].
    split; [rewrite Hq; by vm_compute|].
    apply Hmid. rewrite Hq. split; by vm_compute.
  - destruct (overlap_bucket_tiers (Some "a b c") (Some "a d e f"))
      as (Hlow & _ & _ & _ & Hj & _).
    destruct Hj as [_ Hq]; [apply (bool_decide_unpack _); by vm_compute|].
    split; [rewrite Hq; by vm_compute|].
    apply Hlow. rewrite Hq. by vm_compute.
Defined.

(** ** The aggregation loop *)

Section Counters.
Context `{Countable K}.
Implicit Types (c : gmap K nat) (k : K).

Lemma count_incr_eq c k n : count (incr c k n) k = count c k + n.
Proof. unfold incr, count at 1. by rewrite lookup_insert_eq. Qed.

Lemma count_incr_ne c k k' n : k ≠ k' → count (incr c k n) k' = count c k'.
Proof. intros Hk. unfold incr, count at 1. by rewrite lookup_insert_ne. Qed.

Lemma sum_counts_empty : sum_counts (∅ : gmap K nat) = 0.
Proof. unfold sum_counts. by rewrite map_to_list_empty. Qed.

Lemma sum_counts_insert_fresh c k n :
  c !! k = None → sum_counts (<[k := n]> c) = n + sum_counts c.
Proof.
  intros Hk. unfold sum_counts.
  by rewrite (map_to_list_insert c k n Hk).
Qed.

(** [c[k] += n] adds [n] to the sum of the counts, whether or not the key
    was present. *)
Lemma sum_counts_incr c k n : sum_counts (incr c k n) = sum_counts c + n.
Proof.
  unfold incr, count. destruct (c !! k) as [v|] eqn:Hk; simpl.
  - rewrite <- (insert_delete_id c k v Hk) at 2.
    rewrite <- insert_delete_eq.
    rewrite !sum_counts_insert_fresh by apply lookup_delete_eq. lia.
  - rewrite sum_counts_insert_fresh by done. lia.
Qed.
End Counters.

Section Dimensions.
Implicit Types (m : gmap string nat) (s pfx : string).

Lemma filter_dimension_incr_in pfx m s n :
  String.prefix pfx s = true →
  filter (in_dimension pfx) (incr m s n) = incr (filter (in_dimension pfx) m) s n.
Proof.
  intros Hs. unfold incr. rewrite map_filter_insert_True by done.
  assert (filter (in_dimension pfx) m !! s = m !! s) as Hl.
  { destruct (m !! s) as [v|] eqn:Hm.
    - by apply map_lookup_filter_Some_2.
    - apply map_lookup_filter_None_2. by left. }
  unfold count. by rewrite Hl.
Qed.

Lemma filter_dimension_incr_out pfx m s n :
  String.prefix pfx s = false →
  filter (in_dimension pfx) (incr m s n) = filter (in_dimension pfx) m.
Proof.
  intros Hs. unfold incr. apply map_filter_insert_not.
  intros y. unfold in_dimension. simpl. by rewrite Hs.
Qed.

Lemma prefix_append pfx s : String.prefix pfx (pfx +:+ s) = true.
Proof.
  induction pfx as [|c pfx IH]; simpl.
  - by destruct s.
  - by destruct (ascii_dec c c).
Qed.

(** A slice key lies in the dimension whose tag it starts with, and in
    no other. *)
Lemma slice_key_dimension pfx tag s :
  pfx ∈ dimensions → tag ∈ dimensions →
  String.prefix pfx (tag +:+ s) = bool_decide (pfx = tag).
Proof.
  unfold dimensions. intros Hp Ht.
  repeat (apply elem_of_cons in Hp as [->|Hp]); [| | |by apply elem_of_nil in Hp];
    (repeat (apply elem_of_cons in Ht as [->|Ht]); [| | |by apply elem_of_nil in Ht]);
    first [ by rewrite prefix_append | reflexivity ].
Qed.

(** Counting one example in the bucket [s] adds one to the total of the
    dimension [s] belongs to, and nothing to the others. *)
Lemma sum_dimension_incr pfx m s :
  sum_counts (filter (in_dimension pfx) (incr m s 1)) =
  sum_counts (filter (in_dimension pfx) m) + int_of_bool (String.prefix pfx s).
Proof.
  destruct (String.prefix pfx s) eqn:Hs; simpl.
  - rewrite filter_dimension_incr_in by done. apply sum_counts_incr.
  - rewrite filter_dimension_incr_out by done. lia.
Qed.
End Dimensions.

Section Loop.
Variable a : args.

(** [for s in slices] leaves the overall counters and [conf] alone. *)
Lemma add_slices_total r b st ss :
  total (foldl (add_slice a r b) st ss) = total st.
Proof. revert st. induction ss as [|s ss IH]; intros st; [done|]. simpl. by rewrite IH. Qed.

Lemma add_slices_correct r b st ss :
  correct (foldl (add_slice a r b) st ss) = correct st.
Proof. revert st. induction ss as [|s ss IH]; intros st; [done|]. simpl. by rewrite IH. Qed.

Lemma add_slices_conf r b st ss :
  conf (foldl (add_slice a r b) st ss) = conf st.
Proof. revert st. induction ss as [|s ss IH]; intros st; [done|]. simpl. by rewrite IH. Qed.

Lemma add_slices_slice_tot r b st ss :
  slice_tot (foldl (add_slice a r b) st ss) =
  foldl (λ m s, incr m s 1) (slice_tot st) ss.
Proof. revert st. induction ss as [|s ss IH]; intros st; [done|]. simpl. by rewrite IH. Qed.

Lemma add_slices_slice_cor r b st ss :
  slice_cor (foldl (add_slice a r b) st ss) =
  foldl (λ m s, incr m s (int_of_bool b)) (slice_cor st) ss.
Proof. revert st. induction ss as [|s ss IH]; intros st; [done|]. simpl. by rewrite IH. Qed.

(** A row with a label that reads [None] leaves the state as it is. *)
Lemma process_row_unscored st r : scored r = false → process_row a st r = st.
Proof.
  unfold scored, process_row, gold, pred.
  by destruct (get (label r) None), (get (predicted_label r) None).
Qed.

Lemma scored_labels r : scored r = true ↔ ∃ g p, gold r = Some g ∧ pred r = Some p.
Proof.
  unfold scored. destruct (gold r) as [g|], (pred r) as [p|]; split;
    try done; try (intros (? & ? & ? & ?); done).
  intros _. by exists g, p.
Qed.

Section Scored.
Variables (st : state) (r : row) (g p : Z).
Hypothesis Hg : gold r = Some g.
Hypothesis Hp : pred r = Some p.

Let prem := get (premise r) (Some "").
Let hyp := get (hypothesis r) (Some "").

Lemma process_row_total : total (process_row a st r) = total st + 1.
Proof.
  unfold process_row. unfold gold, pred in Hg, Hp. rewrite Hg, Hp.
  by rewrite add_slices_total.
Qed.

Lemma process_row_correct :
  correct (process_row a st r) = correct st + int_of_bool (g =? p)%Z.
Proof.
  unfold process_row. unfold gold, pred in Hg, Hp. rewrite Hg, Hp.
  by rewrite add_slices_correct.
Qed.

Lemma process_row_conf : conf (process_row a st r) = incr (conf st) (g, p) 1.
Proof.
  unfold process_row. unfold gold, pred in Hg, Hp. rewrite Hg, Hp.
  by rewrite add_slices_conf.
Qed.

Lemma process_row_slice_tot :
  slice_tot (process_row a st r) =
  foldl (λ m s, incr m s 1) (slice_tot st) (slices_of prem hyp).
Proof.
  unfold process_row. unfold gold, pred in Hg, Hp. rewrite Hg, Hp.
  by rewrite add_slices_slice_tot.
Qed.

Lemma process_row_slice_cor :
  slice_cor (process_row a st r) =
  foldl (λ m s, incr m s (int_of_bool (g =? p)%Z)) (slice_cor st) (slices_of prem hyp).
Proof.
  unfold process_row. unfold gold, pred in Hg, Hp. rewrite Hg, Hp.
  by rewrite add_slices_slice_cor.
Qed.

(** Each scored row adds one to each of the three dimensions. *)
Lemma process_row_dimension pfx :
  pfx ∈ dimensions →
  dimension_total pfx (process_row a st r) = dimension_total pfx st + 1.
Proof.
  intros Hpfx. unfold dimension_total. rewrite process_row_slice_tot.
  unfold slices_of. simpl. rewrite !sum_dimension_incr.
  rewrite !slice_key_dimension by (done || (unfold dimensions; repeat constructor)).
  unfold dimensions in Hpfx.
  repeat (apply elem_of_cons in Hpfx as [->|Hpfx]); [| | |by apply elem_of_nil in Hpfx];
    simpl; lia.
Qed.
End Scored.

Lemma run_snoc rows r : run a (rows ++ [r]) = process_row a (run a rows) r.
Proof. unfold run. by rewrite foldl_app. Qed.

End Loop.

(** ** What the loop has counted when it ends *)

Section Totals.
Variable a : args.

Lemma filter_snoc {A} (f : A → bool) l x :
  List.filter f (l ++ [x]) = List.filter f l ++ (if f x then [x] else []).
Proof. by rewrite List.filter_app. Qed.

Lemma run_skips_unscored rows : run a rows = run a (List.filter scored rows).
Proof.
  induction rows as [|r rows IH] using rev_ind; [done|].
  rewrite filter_snoc, run_snoc, IH. destruct (scored r) eqn:Hr.
  - by rewrite run_snoc.
  - rewrite app_nil_r. by apply process_row_unscored.
Qed.

Lemma run_total rows : total (run a rows) = length (List.filter scored rows).
Proof.
  induction rows as [|r rows IH] using rev_ind; [done|].
  rewrite filter_snoc, run_snoc, length_app. destruct (scored r) eqn:Hr.
  - apply scored_labels in Hr as (g & p & Hg & Hp).
    rewrite (process_row_total a _ _ g p) by done. simpl. lia.
  - rewrite process_row_unscored by done. simpl. lia.
Qed.

Lemma run_dimension pfx rows :
  pfx ∈ dimensions → dimension_total pfx (run a rows) = total (run a rows).
Proof.
  intros Hpfx. induction rows as [|r rows IH] using rev_ind.
  - unfold dimension_total. simpl. rewrite map_filter_empty. apply sum_counts_empty.
  - rewrite run_snoc. destruct (scored r) eqn:Hr.
    + apply scored_labels in Hr as (g & p & Hg & Hp).
      rewrite (process_row_dimension a _ _ g p) by done.
      rewrite (process_row_total a _ _ g p) by done. lia.
    + by rewrite process_row_unscored.
Qed.

Lemma scored_as_labels g p r :
  scored_as g p r = true ↔ gold r = Some g ∧ pred r = Some p.
Proof.
  unfold scored_as. destruct (gold r) as [g'|], (pred r) as [p'|];
    try (split; [done | by intros [? ?]]).
  rewrite andb_true_iff, !Z.eqb_eq. split; [by intros [-> ->] | by intros [[= ->] [= ->]]].
Qed.

Lemma run_conf_count g p rows :
  count (conf (run a rows)) (g, p) = length (List.filter (scored_as g p) rows).
Proof.
  induction rows as [|r rows IH] using rev_ind; [done|].
  rewrite filter_snoc, run_snoc, length_app, <- IH. destruct (scored r) eqn:Hr.
  - apply scored_labels in Hr as (g' & p' & Hg & Hp).
    rewrite (process_row_conf a _ _ g' p') by done.
    destruct (scored_as g p r) eqn:Has.
    + apply scored_as_labels in Has as [Hg' Hp'].
      assert (g' = g) as -> by congruence. assert (p' = p) as -> by congruence.
      by rewrite count_incr_eq.
    + rewrite count_incr_ne; [simpl; lia|].
      intros [= -> ->]. assert (scored_as g p r = true) by by apply scored_as_labels.
      congruence.
  - rewrite process_row_unscored by done.
    destruct (scored_as g p r) eqn:Has; [|simpl; lia].
    apply scored_as_labels in Has as [Hg Hp].
    assert (scored r = true) by (apply scored_labels; eauto). congruence.
Qed.

Lemma run_conf_sum rows : sum_counts (conf (run a rows)) = total (run a rows).
Proof.
  induction rows as [|r rows IH] using rev_ind; [apply sum_counts_empty|].
  rewrite run_snoc. destruct (scored r) eqn:Hr.
  - apply scored_labels in Hr as (g & p & Hg & Hp).
    rewrite (process_row_conf a _ _ g p), (process_row_total a _ _ g p) by done.
    rewrite sum_counts_incr. lia.
  - by rewrite process_row_unscored.
Qed.
End Totals.

(** C8. When the loop ends, the per-bucket totals of each of the three
    dimensions add up to the number of scored examples. *)
Theorem dimension_totals_match (a : args) (rows : list row) :
  let st := run a rows in
  total st = length (List.filter scored rows) ∧
  dimension_total "NEG::" st = total st ∧
  dimension_total "LEN::" st = total st ∧
  dimension_total "OVL::" st = total st.
Proof.
  intros st. split; [apply run_total|].
  repeat split; apply run_dimension; unfold dimensions; repeat constructor.
Qed.

(** C9. A scored example adds exactly one to the confusion count of its
    pair (gold, predicted), equal labels or not, and changes no other count;
    when the loop ends every confusion count is the number of scored
    examples with that pair, and the counts add up to the number of scored
    examples. *)
Theorem confusion_counts (a : args) :
  (∀ st r g p, gold r = Some g → pred r = Some p →
     conf (process_row a st r) = incr (conf st) (g, p) 1 ∧
     count (conf (process_row a st r)) (g, p) = count (conf st) (g, p) + 1 ∧
     ∀ k, k ≠ (g, p) → count (conf (process_row a st r)) k = count (conf st) k) ∧
  (∀ rows g p,
     count (conf (run a rows)) (g, p) = length (List.filter (scored_as g p) rows)) ∧
  (∀ rows,
     sum_counts (conf (run a rows)) = total (run a rows) ∧
     total (run a rows) = length (List.filter scored rows)).
Proof.
  split; [|split].
  - intros st r g p Hg Hp. rewrite (process_row_conf a st r g p Hg Hp).
    split; [done|]. split; [apply count_incr_eq|].
    intros k Hk. by apply count_incr_ne.
  - intros rows g p. apply run_conf_count.
  - intros rows. split; [apply run_conf_sum | apply run_total].
Qed.

(** The first part of C9 at a correct and at a wrong prediction. *)
Lemma confusion_counts_witness :
  count (conf (process_row (Args "pred.jsonl" false 3) init
                 (Row (Val "a") (Val "b") (Val 1%Z) (Val 1%Z)))) (1%Z, 1%Z) = 1 ∧
  count (conf (process_row (Args "pred.jsonl" false 3) init
                 (Row (Val "a") (Val "b") (Val 2%Z) (Val 0%Z)))) (2%Z, 0%Z) = 1.
Proof.
  split.
  - apply (proj1 (confusion_counts (Args "pred.jsonl" false 3)) init
             (Row (Val "a") (Val "b") (Val 1%Z) (Val 1%Z)) 1%Z 1%Z);
      reflexivity.
  - apply (proj1 (confusion_counts (Args "pred.jsonl" false 3)) init
             (Row (Val "a") (Val "b") (Val 2%Z) (Val 0%Z)) 2%Z 0%Z);
      reflexivity.
Defined.

(** C3. A row whose gold or predicted label field is missing is not scored
    and leaves every counter as it was, so the loop ends in the state it
    would reach without such rows. *)
Theorem unlabelled_rows_excluded (a : args) :
  (∀ st r, label r = Absent ∨ predicted_label r = Absent →
     scored r = false ∧ process_row a st r = st) ∧
  (∀ rows, run a rows = run a (List.filter scored rows)).
Proof.
  split; [|apply run_skips_unscored].
  intros st r Hr.
  assert (Hs : scored r = false).
  { unfold scored, gold, pred.
    destruct Hr as [-> | ->]; [done|]. by destruct (get (label r) None). }
  split; [done|]. by apply process_row_unscored.
Qed.

(** C3 at a row without the [label] field and at a row without the
    [predicted_label] field. *)
Lemma unlabelled_rows_excluded_witness :
  process_row (Args "pred.jsonl" true 3) init
    (Row (Val "A dog runs") (Val "A dog") Absent (Val 1%Z)) = init ∧
  process_row (Args "pred.jsonl" true 3) init
    (Row (Val "A dog runs") (Val "A dog") (Val 0%Z) Absent) = init.
Proof.
  split.
  - apply (proj1 (unlabelled_rows_excluded (Args "pred.jsonl" true 3)) init
             (Row (Val "A dog runs") (Val "A dog") Absent (Val 1%Z))).
    left. reflexivity.
  - apply (proj1 (unlabelled_rows_excluded (Args "pred.jsonl" true 3)) init
             (Row (Val "A dog runs") (Val "A dog") (Val 0%Z) Absent)).
    right. reflexivity.
Defined.

(** ** Rows without a text field *)

Section RowSlices.

Lemma slices_of_NoDup prem hyp : NoDup (slices_of prem hyp).
Proof.
  unfold slices_of. repeat constructor.
  - intros Hin. repeat (apply elem_of_cons in Hin as [Hin|Hin]); try discriminate.
    by apply elem_of_nil in Hin.
  - intros Hin. repeat (apply elem_of_cons in Hin as [Hin|Hin]); try discriminate.
    by apply elem_of_nil in Hin.
  - apply not_elem_of_nil.
Qed.

Lemma count_foldl_incr (m : gmap string nat) ss k n :
  NoDup ss →
  count (foldl (λ m s, incr m s n) m ss) k =
  count m k + (if bool_decide (k ∈ ss) then n else 0).
Proof.
  intros Hnd. revert m. induction Hnd as [|s ss Hs Hnd IH]; intros m.
  - case_bool_decide as Hin; [by apply elem_of_nil in Hin | simpl; lia].
  - change (foldl (λ m s, incr m s n) m (s :: ss))
      with (foldl (λ m s, incr m s n) (incr m s n) ss).
    rewrite IH. destruct (decide (k = s)) as [->|Hk].
    + rewrite count_incr_eq. repeat case_bool_decide; try done; try lia.
      exfalso. by apply H0; left.
    + rewrite count_incr_ne by done.
      repeat case_bool_decide; try done.
      * exfalso. apply H0. by right.
      * exfalso. apply elem_of_cons in H0 as [?|?]; done.
Qed.

Lemma overlap_bucket_empty_l (p h : option string) :
  token_set p = ∅ → overlap_bucket p h = "low(<0.2)".
Proof.
  intros Hp. unfold overlap_bucket, jaccard_overlap. rewrite Hp.
  destruct (_ && _); [done|].
  by rewrite (left_absorb_L ∅ (∩)), size_empty.
Qed.

Lemma overlap_bucket_empty_r (p h : option string) :
  token_set h = ∅ → overlap_bucket p h = "low(<0.2)".
Proof.
  intros Hh. unfold overlap_bucket, jaccard_overlap. rewrite Hh.
  destruct (_ && _); [done|].
  by rewrite (right_absorb_L ∅ (∩)), size_empty.
Qed.

End RowSlices.

(** C10. A row without the [premise] or the [hypothesis] field is scored
    like any other when both labels are present: the missing text reads as
    the empty string, and the row is counted once in the total, once in its
    confusion pair and once in each of its three slices, and in no other.
    Without a premise the overlap slice is the low one; without a
    hypothesis the slices are no negation, short and low overlap.  The
    classifiers are defined on the empty text and on [None]: no tokens, no
    negation, the short tier, and an overlap of 0 with every text. *)
Theorem missing_text_still_scored (a : args) :
  (∀ st r g p,
     premise r = Absent ∨ hypothesis r = Absent →
     gold r = Some g → pred r = Some p →
     let hyp := get (hypothesis r) (Some "") in
     let st' := process_row a st r in
     (premise r = Absent → get (premise r) (Some "") = Some "") ∧
     (hypothesis r = Absent → hyp = Some "") ∧
     scored r = true ∧
     total st' = total st + 1 ∧
     correct st' = correct st + int_of_bool (g =? p)%Z ∧
     count (conf st') (g, p) = count (conf st) (g, p) + 1 ∧
     (premise r = Absent →
      row_slices r =
        [ "NEG::" +:+ (if has_negation hyp then "negation" else "no_negation");
          "LEN::" +:+ length_bucket hyp;
          "OVL::low(<0.2)" ]) ∧
     (hypothesis r = Absent →
      row_slices r = [ "NEG::no_negation"; "LEN::short(<=5)"; "OVL::low(<0.2)" ]) ∧
     (∀ k, count (slice_tot st') k =
           count (slice_tot st) k + (if bool_decide (k ∈ row_slices r) then 1 else 0)) ∧
     (∀ k, count (slice_cor st') k =
           count (slice_cor st) k +
           (if bool_decide (k ∈ row_slices r) then int_of_bool (g =? p)%Z else 0)) ∧
     dimension_total "NEG::" st' = dimension_total "NEG::" st + 1 ∧
     dimension_total "LEN::" st' = dimension_total "LEN::" st + 1 ∧
     dimension_total "OVL::" st' = dimension_total "OVL::" st + 1) ∧
  (∀ text, text = None ∨ text = Some "" →
     tokenize text = [] ∧ has_negation text = false ∧
     length_bucket text = "short(<=5)" ∧
     ∀ other, (jaccard_overlap text other == 0)%Q ∧ (jaccard_overlap other text == 0)%Q).
Proof.
  split.
  - intros st r g p Hr Hg Hp hyp st'. subst st'.
    split; [by intros ->|].
    split; [intros H; subst hyp; by rewrite H|].
    split; [apply scored_labels; eauto|].
    split; [by apply (process_row_total a st r g p)|].
    split; [by apply (process_row_correct a st r g p)|].
    split; [rewrite (process_row_conf a st r g p) by done; apply count_incr_eq|].
    split.
    { intros Hprem. unfold row_slices, slices_of. rewrite Hprem. simpl get.
      fold hyp. by rewrite (overlap_bucket_empty_l (Some "") hyp). }
    split.
    { intros Hhyp. unfold row_slices, slices_of. rewrite Hhyp. simpl get.
      by rewrite (overlap_bucket_empty_r _ (Some "")). }
    split.
    { intros k. rewrite (process_row_slice_tot a st r g p) by done.
      apply count_foldl_incr, slices_of_NoDup. }
    split.
    { intros k. rewrite (process_row_slice_cor a st r g p) by done.
      apply count_foldl_incr, slices_of_NoDup. }
    repeat split; apply (process_row_dimension a st r g p); try done;
      unfold dimensions; repeat constructor.
  - intros text Ht.
    assert (Htok : tokenize text = []) by (by destruct Ht as [-> | ->]).
    split; [done|]. split; [by destruct Ht as [-> | ->]|].
    split; [by destruct Ht as [-> | ->]|].
    assert (Hset : token_set text = ∅) by (unfold token_set; by rewrite Htok).
    intros other. split; apply jaccard_disjoint; rewrite Hset.
    + apply disjoint_empty_l.
    + apply disjoint_empty_r.
Qed.

(** C10 at a row without [hypothesis], at a row without [premise], and at
    the text [None]. *)
Lemma missing_text_still_scored_witness :
  (total (process_row (Args "pred.jsonl" false 3) init
            (Row (Val "No dog barks") Absent (Val 1%Z) (Val 2%Z))) = 1 ∧
   count (slice_tot (process_row (Args "pred.jsonl" false 3) init
            (Row (Val "No dog barks") Absent (Val 1%Z) (Val 2%Z)))) "NEG::no_negation" = 1 ∧
   count (slice_tot (process_row (Args "pred.jsonl" false 3) init
            (Row (Val "No dog barks") Absent (Val 1%Z) (Val 2%Z)))) "LEN::short(<=5)" = 1 ∧
   count (slice_tot (process_row (Args "pred.jsonl" false 3) init
            (Row (Val "No dog barks") Absent (Val 1%Z) (Val 2%Z)))) "OVL::low(<0.2)" = 1) ∧
  (row_slices (Row Absent (Val "No dog barks") (Val 1%Z) (Val 2%Z)) =
     [ "NEG::negation"; "LEN::short(<=5)"; "OVL::low(<0.2)" ] ∧
   count (slice_tot (process_row (Args "pred.jsonl" false 3) init
            (Row Absent (Val "No dog barks") (Val 1%Z) (Val 2%Z)))) "NEG::negation" = 1) ∧
  length_bucket None = "short(<=5)".
Proof.
  split; [|split].
  - destruct (proj1 (missing_text_still_scored (Args "pred.jsonl" false 3)) init
                (Row (Val "No dog barks") Absent (Val 1%Z) (Val 2%Z)) 1%Z 2%Z)
      as (_ & _ & _ & Htot & _ & _ & _ & Hsl & Hcount & _);
      [right; reflexivity | reflexivity | reflexivity |].
    split; [exact Htot|]. rewrite !Hcount, (Hsl eq_refl). by vm_compute.
  - destruct (proj1 (missing_text_still_scored (Args "pred.jsonl" false 3)) init
                (Row Absent (Val "No dog barks") (Val 1%Z) (Val 2%Z)) 1%Z 2%Z)
      as (_ & _ & _ & _ & _ & _ & Hsl & _ & Hcount & _);
      [left; reflexivity | reflexivity | reflexivity |].
    split; [by rewrite (Hsl eq_refl)|].
    rewrite Hcount, (Hsl eq_refl). by vm_compute.
  - apply (proj2 (missing_text_still_scored (Args "pred.jsonl" false 3)) None).
    left. reflexivity.
Defined.

(** ** The two scenarios *)

(** C1, as the claim states it, fails: the example is not counted in the
    negation slice. *)
Lemma scenario_not_in_negation_slice :
  ¬ (count (slice_tot (run (Args "pred.jsonl" false 3)
                         [Row (Val "A man is not running") (Val "A man is running")
                              (Val 2%Z) (Val 0%Z)])) "NEG::negation" = 1 ∧
     count (slice_tot (run (Args "pred.jsonl" false 3)
                         [Row (Val "A man is not running") (Val "A man is running")
                              (Val 2%Z) (Val 0%Z)])) "OVL::high(>=0.5)" = 1 ∧
     count (conf (run (Args "pred.jsonl" false 3)
                    [Row (Val "A man is not running") (Val "A man is running")
                         (Val 2%Z) (Val 0%Z)])) (2%Z, 0%Z) = 1).
Proof. intros [H _]. vm_compute in H. discriminate. Qed.

(** C1, amended. Negation is looked for in the hypothesis only.  For the
    premise "A man is not running", the hypothesis "A man is running", gold
    label 2 and predicted label 0, the example is counted in the slice
    without negation, in the short length tier and in the high overlap tier,
    and adds one to the confusion count of the pair (2, 0). *)
Theorem scenario_running (a : args) :
  let r := Row (Val "A man is not running") (Val "A man is running") (Val 2%Z) (Val 0%Z) in
  let st := run a [r] in
  has_negation (Some "A man is not running") = true ∧
  has_negation (Some "A man is running") = false ∧
  (jaccard_overlap (Some "A man is not running") (Some "A man is running") == 4 # 5)%Q ∧
  slice_tot st =
    {[ "NEG::no_negation" := 1; "LEN::short(<=5)" := 1; "OVL::high(>=0.5)" := 1 ]} ∧
  slice_cor st =
    {[ "NEG::no_negation" := 0; "LEN::short(<=5)" := 0; "OVL::high(>=0.5)" := 0 ]} ∧
  conf st = {[ (2%Z, 0%Z) := 1 ]} ∧
  total st = 1 ∧ correct st = 0.
Proof.
  intros r st. subst st. unfold run. simpl foldl.
  split; [reflexivity|]. split; [reflexivity|]. split; [by vm_compute|].
  rewrite (process_row_slice_tot a init r 2%Z 0%Z), (process_row_slice_cor a init r 2%Z 0%Z),
    (process_row_conf a init r 2%Z 0%Z), (process_row_total a init r 2%Z 0%Z),
    (process_row_correct a init r 2%Z 0%Z) by reflexivity.
  repeat split; by vm_compute.
Qed.

(** C2. On a file without rows [main] prints the file name and the count
    of 0 scored examples, then raises [ZeroDivisionError] at the overall
    accuracy: there is no message for the empty case and no normal end. *)
Theorem main_empty_file_raises (a : args) :
  main a [] = Raise [LFile (pred_file a); LScored 0] ZeroDivisionError.
Proof. reflexivity. Qed.

(** The same holds whenever no row is scored. *)
Lemma main_nothing_scored_raises (a : args) (rows : list row) :
  List.filter scored rows = [] →
  main a rows = Raise [LFile (pred_file a); LScored 0] ZeroDivisionError.
Proof.
  intros Hrows. unfold main.
  assert (Ht : total (run a rows) = 0) by (by rewrite run_total, Hrows).
  rewrite Ht. reflexivity.
Qed.

(** * Further properties of the code *)

(** ** The tokenizer *)

Section Tokens.

Lemma is_token_char_lower_char c : is_token_char (lower_char c) = is_token_char c.
Proof. by destruct c as [[] [] [] [] [] [] [] []]. Qed.

Lemma lower_token_char c :
  is_token_char c = true → is_lower_token_char (lower_char c) = true.
Proof. by destruct c as [[] [] [] [] [] [] [] []]. Qed.

Lemma lower_app s1 s2 : lower (s1 ++ s2) = lower s1 ++ lower s2.
Proof. apply map_app. Qed.

Lemma list_ascii_of_string_app s1 s2 :
  list_ascii_of_string (s1 +:+ s2) = list_ascii_of_string s1 ++ list_ascii_of_string s2.
Proof. induction s1 as [|c s1 IH]; [done|]. simpl. by rewrite IH. Qed.

(** Reading a run of token characters only grows the token being read. *)
Lemma findall_from_run acc w rest :
  forallb is_token_char w = true →
  findall_from acc (w ++ rest) = findall_from (rev w ++ acc) rest.
Proof.
  revert acc. induction w as [|c w IH]; intros acc Hw; [done|].
  simpl in Hw. apply andb_true_iff in Hw as [Hc Hw].
  simpl. rewrite Hc, IH by done. by rewrite <- app_assoc.
Qed.

(** A separator ends the token being read. *)
Lemma findall_from_sep acc c rest :
  is_token_char c = false →
  findall_from acc (c :: rest) = flush acc ++ findall_from [] rest.
Proof. intros Hc. simpl. by rewrite Hc. Qed.

(** What is read before a separator does not depend on what follows it. *)
Lemma findall_from_split acc s1 c s2 :
  is_token_char c = false →
  findall_from acc (s1 ++ c :: s2) = findall_from acc s1 ++ findall_from [] s2.
Proof.
  intros Hc. revert acc. induction s1 as [|d s1 IH]; intros acc.
  - simpl. by rewrite Hc.
  - simpl. destruct (is_token_char d); [apply IH|].
    by rewrite IH, app_assoc.
Qed.

Lemma findall_from_tokens acc s t :
  Forall (λ c, is_lower_token_char c = true) acc →
  Forall (λ c, is_token_char c = true → is_lower_token_char c = true) s →
  t ∈ findall_from acc s →
  t ≠ "" ∧ forallb is_lower_token_char (list_ascii_of_string t) = true.
Proof.
  assert (Hflush : ∀ acc, Forall (λ c, is_lower_token_char c = true) acc →
            t ∈ flush acc →
            t ≠ "" ∧ forallb is_lower_token_char (list_ascii_of_string t) = true).
  { intros [|c acc'] Hacc Ht; [by apply elem_of_nil in Ht|].
    apply list_elem_of_singleton in Ht as ->. split.
    - intros He. apply (f_equal list_ascii_of_string) in He.
      rewrite list_ascii_of_string_of_list_ascii in He. simpl in He.
      by destruct (rev acc').
    - rewrite list_ascii_of_string_of_list_ascii.
      apply forallb_forall. intros x Hx. apply in_rev in Hx.
      rewrite Forall_forall in Hacc. apply Hacc. by apply list_elem_of_In. }
  intros Hacc Hs. revert acc Hacc. induction Hs as [|c s Hc Hs IH]; intros acc Hacc Ht.
  - by apply Hflush in Ht.
  - simpl in Ht. destruct (is_token_char c) eqn:E.
    + apply IH in Ht; [done|]. constructor; [by apply Hc | done].
    + apply elem_of_app in Ht as [Ht|Ht]; [by apply Hflush in Ht|].
      apply IH in Ht; [done | constructor].
Qed.

End Tokens.

(** X1. Every token of [tokenize] is a non-empty string of lower-case
    letters, digits and apostrophes. *)
Theorem tokenize_tokens (text : option string) (t : string) :
  t ∈ tokenize text →
  t ≠ "" ∧ forallb is_lower_token_char (list_ascii_of_string t) = true.
Proof.
  unfold tokenize, WORD_RE_findall. apply findall_from_tokens; [constructor|].
  apply Forall_forall. intros c Hc Ht.
  apply list_elem_of_In, in_map_iff in Hc as (d & <- & _).
  apply lower_token_char. by rewrite <- is_token_char_lower_char.
Qed.

Lemma tokenize_tokens_witness :
  "isn't" ≠ "" ∧ forallb is_lower_token_char (list_ascii_of_string "isn't") = true.
Proof.
  apply (tokenize_tokens (Some "It ISN'T so") "isn't").
  vm_compute. apply list_elem_of_In. right. left. reflexivity.
Defined.

Lemma tokenize_at_separator (s1 s2 : string) (c : ascii) :
  is_token_char c = false →
  tokenize (Some (s1 +:+ String c s2)) = tokenize (Some s1) ++ tokenize (Some s2).
Proof.
  intros Hc. unfold tokenize, WORD_RE_findall. simpl or_empty.
  rewrite list_ascii_of_string_app, lower_app. simpl.
  apply findall_from_split. by rewrite is_token_char_lower_char.
Qed.

(** X2. On ASCII text, an ASCII character that is not a token character
    separates tokens: the tokens of [s1 c s2] are those of [s1] followed by
    those of [s2]. *)
Theorem tokenize_separator (s1 s2 : string) (c : ascii) :
  ascii_text s1 → ascii_text s2 → is_ascii c = true →
  is_token_char c = false →
  tokenize (Some (s1 +:+ String c s2)) = tokenize (Some s1) ++ tokenize (Some s2).
Proof. intros _ _ _. apply tokenize_at_separator. Qed.

Lemma tokenize_separator_witness :
  tokenize (Some ("Dogs" +:+ String "," "cats")) =
  tokenize (Some "Dogs") ++ tokenize (Some "cats").
Proof. apply tokenize_separator; reflexivity. Defined.

Lemma findall_from_all acc w :
  forallb is_token_char w = true → findall_from acc w = flush (rev w ++ acc).
Proof. intros Hw. rewrite <- (app_nil_r w) at 1. by rewrite findall_from_run. Qed.

Lemma tokenize_word (w : string) : is_word w → tokenize (Some w) = [lower_string w].
Proof.
  intros [Hne Hw]. unfold tokenize, WORD_RE_findall, lower_string. simpl or_empty.
  rewrite findall_from_all, app_nil_r.
  - destruct (list_ascii_of_string w) as [|c l] eqn:E.
    + destruct Hne. apply (f_equal string_of_list_ascii) in E.
      by rewrite string_of_list_ascii_of_string in E.
    + unfold flush. destruct (rev (lower (c :: l))) eqn:Er.
      * apply (f_equal (@rev _)) in Er. by rewrite rev_involutive in Er.
      * by rewrite <- Er, rev_involutive.
  - apply forallb_forall. intros x Hx. apply in_map_iff in Hx as (d & <- & Hd).
    rewrite is_token_char_lower_char.
    rewrite forallb_forall in Hw. by apply Hw.
Qed.

(** X3. Words written with one space between them are read back as those
    words, in lower case. *)
Theorem tokenize_words (ws : list string) :
  Forall is_word ws →
  tokenize (Some (String.concat " " ws)) = map lower_string ws.
Proof.
  induction 1 as [|w ws Hw Hws IH]; [done|].
  destruct ws as [|w' ws]; [by apply tokenize_word|].
  change (String.concat " " (w :: w' :: ws))
    with (w +:+ String " " (String.concat " " (w' :: ws))).
  rewrite tokenize_at_separator by done. rewrite IH, tokenize_word by done. done.
Qed.

Lemma tokenize_words_witness :
  tokenize (Some (String.concat " " ["Two"; "dogs"; "don't"; "RUN"])) =
  map lower_string ["Two"; "dogs"; "don't"; "RUN"].
Proof.
  apply tokenize_words. repeat constructor; by vm_compute.
Defined.

(** ** Negation and letter case *)

Lemma whole_word_negation_lower s s' :
  lower s = lower s' → whole_word_negation s → whole_word_negation s'.
Proof.
  intros Hl (pre & w & post & -> & Hw & Hpre & Hpost).
  rewrite !lower_app in Hl. symmetry in Hl.
  apply map_eq_app in Hl as (pre' & rest & -> & Hpre' & Hl).
  apply map_eq_app in Hl as (w' & post' & -> & Hw' & Hpost').
  exists pre', w', post'. split; [done|]. split; [|split].
  - unfold negation_token, lower in *. by rewrite Hw'.
  - rewrite <- is_w_at_last_lower. unfold lower. rewrite Hpre'.
    by rewrite is_w_at_last_lower.
  - rewrite <- is_w_at_head_lower. unfold lower. rewrite Hpost'.
    by rewrite is_w_at_head_lower.
Qed.

Lemma has_negation_split (s : string) :
  has_negation (Some s) = true ↔ whole_word_negation (list_ascii_of_string s).
Proof.
  unfold has_negation, whole_word_negation. simpl.
  rewrite NEG_RE_search_split. unfold last_or.
  split; intros (pre & w & post & Hs & Hn & Hp & Hr); exists pre, w, post;
    (split; [done|]); (split; [done|]); (split; [|done]);
    by destruct (last pre).
Qed.

(** X4. On ASCII text, [has_negation] does not depend on letter case: two
    ASCII texts that are equal once in lower case get the same answer. *)
Theorem has_negation_case_insensitive (s s' : string) :
  ascii_text s → ascii_text s' →
  lower_string s = lower_string s' →
  has_negation (Some s) = has_negation (Some s').
Proof.
  intros _ _ Hl. apply (f_equal list_ascii_of_string) in Hl.
  unfold lower_string in Hl. rewrite !list_ascii_of_string_of_list_ascii in Hl.
  destruct (has_negation (Some s)) eqn:E1, (has_negation (Some s')) eqn:E2; try done.
  - apply has_negation_split, (whole_word_negation_lower _ _ Hl), has_negation_split in E1.
    congruence.
  - apply has_negation_split, (whole_word_negation_lower _ _ (eq_sym Hl)),
      has_negation_split in E2.
    congruence.
Qed.

Lemma has_negation_case_insensitive_witness :
  has_negation (Some "NOBODY Came") = has_negation (Some "nobody came").
Proof. apply has_negation_case_insensitive; reflexivity. Defined.

(** ** The range of the overlap *)

Section JaccardRange.
Implicit Types (sa sb : gset string).

Lemma size_inter_le_union sa sb : size (sa ∩ sb) ≤ size (sa ∪ sb).
Proof.
  apply subseteq_size. transitivity sa;
    [apply intersection_subseteq_l | apply union_subseteq_l].
Qed.

Lemma inter_union_size_eq sa sb : size (sa ∩ sb) = size (sa ∪ sb) → sa = sb.
Proof.
  intros Hsz.
  assert (Hsub : sa ∩ sb ⊆ sa ∪ sb).
  { transitivity sa; [apply intersection_subseteq_l | apply union_subseteq_l]. }
  assert (Heq : sa ∩ sb = sa ∪ sb) by (apply set_subseteq_size_eq; [done | lia]).
  apply (anti_symm (⊆)).
  - transitivity (sa ∪ sb); [apply union_subseteq_l|].
    rewrite <- Heq. apply intersection_subseteq_r.
  - transitivity (sa ∪ sb); [apply union_subseteq_r|].
    rewrite <- Heq. apply intersection_subseteq_l.
Qed.

Lemma jaccard_same a b :
  token_set a = token_set b → token_set a ≠ ∅ → (jaccard_overlap a b == 1)%Q.
Proof.
  intros Heq Hne. unfold jaccard_overlap. rewrite <- Heq.
  destruct (size_0_empty (token_set a)) as [H0 _].
  destruct (size (token_set a) =? 0) eqn:E; [by destruct Hne; apply H0|].
  simpl. rewrite (idemp_L (∩) (token_set a)), (idemp_L (∪) (token_set a)).
  apply Nat.eqb_neq in E. unfold Qeq. simpl.
  rewrite Qmake_nat_pos by done. lia.
Qed.

Lemma Qmake_nat_le_1 (k n : nat) : k ≤ n → n ≠ 0 → (Z.of_nat k # Pos.of_nat n <= 1)%Q.
Proof.
  intros Hk Hn. unfold Qle. simpl. rewrite Qmake_nat_pos by done. lia.
Qed.

Lemma Qmake_nat_eq_1 (k n : nat) : n ≠ 0 → (Z.of_nat k # Pos.of_nat n == 1)%Q → k = n.
Proof.
  intros Hn. unfold Qeq. simpl. rewrite Qmake_nat_pos by done. lia.
Qed.

Lemma Qmake_nat_eq_0 (k n : nat) : (Z.of_nat k # Pos.of_nat n == 0)%Q → k = 0.
Proof. unfold Qeq. simpl. lia. Qed.

End JaccardRange.

(** X5. The overlap lies between 0 and 1; it is 1 only when the two token
    sets are equal and not empty, and 0 only when they are disjoint. *)
Theorem jaccard_overlap_range (a b : option string) :
  (0 <= jaccard_overlap a b)%Q ∧ (jaccard_overlap a b <= 1)%Q ∧
  ((jaccard_overlap a b == 1)%Q ↔ token_set a = token_set b ∧ token_set a ≠ ∅) ∧
  ((jaccard_overlap a b == 0)%Q ↔ token_set a ## token_set b).
Proof.
  pose proof (jaccard_divisor_nonzero (token_set a) (token_set b)) as Hnz.
  pose proof (size_inter_le_union (token_set a) (token_set b)) as Hle.
  split; [|split; [|split]].
  - unfold jaccard_overlap. destruct (_ && _); [done|].
    unfold Qle. simpl. lia.
  - unfold jaccard_overlap. destruct (_ && _); [done|].
    apply Qmake_nat_le_1; [done | by apply Hnz].
  - split.
    + unfold jaccard_overlap.
      destruct ((size (token_set a) =? 0) && (size (token_set b) =? 0)) eqn:E; [done|].
      intros H1. apply Qmake_nat_eq_1 in H1; [|by apply Hnz].
      apply inter_union_size_eq in H1. split; [done|].
      intros Ha. rewrite <- H1, Ha, size_empty in E. done.
    + intros [Heq Hne]. by apply jaccard_same.
  - split; [|apply jaccard_disjoint].
    unfold jaccard_overlap.
    destruct ((size (token_set a) =? 0) && (size (token_set b) =? 0)) eqn:E.
    + intros _. apply andb_true_iff in E as [Ea _].
      apply size_0_empty in Ea. rewrite Ea. apply disjoint_empty_l.
    + intros H0. apply Qmake_nat_eq_0 in H0.
      apply size_empty_iff, leibniz_equiv_iff in H0.
      by apply disjoint_intersection_L.
Qed.

(** ** What the counters hold when the loop ends *)

Section Buckets.
Variable a : args.

Lemma slices_of_keys prem hyp k : k ∈ slices_of prem hyp → k ∈ slice_keys.
Proof.
  unfold slices_of, length_bucket, overlap_bucket, slice_keys. intros Hin.
  repeat (apply elem_of_cons in Hin as [->|Hin]); [| | |by apply elem_of_nil in Hin].
  - destruct (has_negation hyp); apply list_elem_of_In; simpl; tauto.
  - repeat case_match; apply list_elem_of_In; simpl; tauto.
  - repeat case_match; apply list_elem_of_In; simpl; tauto.
Qed.

Lemma lookup_foldl_incr_is_Some (m : gmap string nat) ss k n :
  is_Some (foldl (λ m s, incr m s n) m ss !! k) ↔ is_Some (m !! k) ∨ k ∈ ss.
Proof.
  revert m. induction ss as [|s ss IH]; intros m; simpl.
  - split; [by left | intros [?|?%elem_of_nil]; done].
  - rewrite IH. unfold incr. rewrite lookup_insert_is_Some, elem_of_cons.
    split.
    + intros [[->|[_ Hm]]|Hin]; [right; by left | by left | right; by right].
    + intros [Hm|[->|Hin]]; [|left; by left | by right].
      destruct (decide (s = k)) as [->|]; left; [by left | by right].
Qed.

Lemma is_right_labels r g p :
  gold r = Some g → pred r = Some p → is_right r = (g =? p)%Z.
Proof. unfold is_right. by intros -> ->. Qed.

Lemma unscored_not_right r : scored r = false → is_right r = false.
Proof. unfold scored, is_right. by destruct (gold r), (pred r). Qed.

Lemma run_correct rows : correct (run a rows) = length (List.filter is_right rows).
Proof.
  induction rows as [|r rows IH] using rev_ind; [done|].
  rewrite filter_snoc, run_snoc, length_app, <- IH. destruct (scored r) eqn:Hr.
  - apply scored_labels in Hr as (g & p & Hg & Hp).
    rewrite (process_row_correct a _ _ g p), (is_right_labels r g p) by done.
    by destruct (g =? p)%Z.
  - rewrite process_row_unscored, unscored_not_right by done. simpl. lia.
Qed.

Lemma run_slice_tot_count rows k :
  count (slice_tot (run a rows)) k = length (List.filter (in_slice k) rows).
Proof.
  induction rows as [|r rows IH] using rev_ind; [done|].
  rewrite filter_snoc, run_snoc, length_app, <- IH. unfold in_slice.
  destruct (scored r) eqn:Hr.
  - apply scored_labels in Hr as (g & p & Hg & Hp).
    rewrite (process_row_slice_tot a _ _ g p) by done.
    rewrite count_foldl_incr by apply slices_of_NoDup.
    unfold row_slices. simpl. by case_bool_decide.
  - rewrite process_row_unscored by done. simpl. lia.
Qed.

Lemma run_slice_cor_count rows k :
  count (slice_cor (run a rows)) k =
  length (List.filter (λ r, in_slice k r && is_right r) rows).
Proof.
  induction rows as [|r rows IH] using rev_ind; [done|].
  rewrite filter_snoc, run_snoc, length_app, <- IH. unfold in_slice.
  destruct (scored r) eqn:Hr.
  - apply scored_labels in Hr as (g & p & Hg & Hp).
    rewrite (process_row_slice_cor a _ _ g p) by done.
    rewrite count_foldl_incr by apply slices_of_NoDup.
    rewrite (is_right_labels r g p) by done.
    unfold row_slices. simpl. case_bool_decide; [|done].
    by destruct (g =? p)%Z.
  - rewrite process_row_unscored by done. simpl. lia.
Qed.

Lemma filter_length_le {A} (f g : A → bool) l :
  length (List.filter (λ x, f x && g x) l) ≤ length (List.filter f l).
Proof.
  induction l as [|x l IH]; [done|]. simpl.
  destruct (f x), (g x); simpl; lia.
Qed.

End Buckets.

(** X6. When the loop ends, the total of a bucket is the number of scored
    rows that fall in it and its correct count is the number of those with
    equal labels; [correct] is the number of scored rows with equal labels.
    So no correct count exceeds its total. *)
Theorem bucket_counts (a : args) (rows : list row) (k : string) :
  let st := run a rows in
  count (slice_tot st) k = length (List.filter (in_slice k) rows) ∧
  count (slice_cor st) k = length (List.filter (λ r, in_slice k r && is_right r) rows) ∧
  correct st = length (List.filter is_right rows) ∧
  count (slice_cor st) k ≤ count (slice_tot st) k ∧
  correct st ≤ total st.
Proof.
  intros st. subst st.
  rewrite run_slice_tot_count, run_slice_cor_count, run_correct, run_total.
  repeat split; try apply filter_length_le.
  clear. induction rows as [|r rows IH]; [done|]. simpl.
  pose proof (unscored_not_right r) as Hr.
  destruct (scored r), (is_right r); simpl; lia || by specialize (Hr eq_refl).
Qed.

Section Corrects.
Variable a : args.

Lemma sum_dimension_incr_by pfx (m : gmap string nat) s n :
  sum_counts (filter (in_dimension pfx) (incr m s n)) =
  sum_counts (filter (in_dimension pfx) m) + (if String.prefix pfx s then n else 0).
Proof.
  destruct (String.prefix pfx s) eqn:Hs.
  - rewrite filter_dimension_incr_in by done. apply sum_counts_incr.
  - rewrite filter_dimension_incr_out by done. lia.
Qed.

Lemma process_row_dimension_correct st r g p pfx :
  gold r = Some g → pred r = Some p → pfx ∈ dimensions →
  dimension_correct pfx (process_row a st r) =
  dimension_correct pfx st + int_of_bool (g =? p)%Z.
Proof.
  intros Hg Hp Hpfx. unfold dimension_correct.
  rewrite (process_row_slice_cor a st r g p) by done.
  unfold slices_of. simpl. rewrite !sum_dimension_incr_by.
  rewrite !slice_key_dimension by (done || (unfold dimensions; repeat constructor)).
  unfold dimensions in Hpfx.
  repeat (apply elem_of_cons in Hpfx as [->|Hpfx]); [| | |by apply elem_of_nil in Hpfx];
    simpl; lia.
Qed.

Lemma run_dimension_correct pfx rows :
  pfx ∈ dimensions → dimension_correct pfx (run a rows) = correct (run a rows).
Proof.
  intros Hpfx. induction rows as [|r rows IH] using rev_ind.
  - unfold dimension_correct. simpl. rewrite map_filter_empty. apply sum_counts_empty.
  - rewrite run_snoc. destruct (scored r) eqn:Hr.
    + apply scored_labels in Hr as (g & p & Hg & Hp).
      rewrite (process_row_dimension_correct _ _ g p) by done.
      rewrite (process_row_correct a _ _ g p) by done. lia.
    + by rewrite process_row_unscored.
Qed.

End Corrects.

(** X7. When the loop ends, the per-bucket correct counts of each of the
    three dimensions add up to [correct]. *)
Theorem dimension_corrects_match (a : args) (rows : list row) :
  let st := run a rows in
  dimension_correct "NEG::" st = correct st ∧
  dimension_correct "LEN::" st = correct st ∧
  dimension_correct "OVL::" st = correct st.
Proof.
  intros st. repeat split; apply run_dimension_correct; unfold dimensions;
    repeat constructor.
Qed.

Section Keys.
Variable a : args.

Lemma process_row_keys st r g p k :
  gold r = Some g → pred r = Some p →
  (is_Some (slice_tot (process_row a st r) !! k) ↔
   is_Some (slice_tot st !! k) ∨ k ∈ row_slices r) ∧
  (is_Some (slice_cor (process_row a st r) !! k) ↔
   is_Some (slice_cor st !! k) ∨ k ∈ row_slices r).
Proof.
  intros Hg Hp.
  rewrite (process_row_slice_tot a st r g p), (process_row_slice_cor a st r g p) by done.
  split; apply lookup_foldl_incr_is_Some.
Qed.

(** The keys of the two slice counters are the buckets some scored row
    fell in. *)
Lemma run_keys rows k :
  (is_Some (slice_tot (run a rows) !! k) ↔ ∃ r, r ∈ rows ∧ in_slice k r = true) ∧
  (is_Some (slice_cor (run a rows) !! k) ↔ ∃ r, r ∈ rows ∧ in_slice k r = true).
Proof.
  induction rows as [|r rows [IHt IHc]] using rev_ind.
  - split; (split; [by intros [? ?] | by intros (? & ?%elem_of_nil & _)]).
  - rewrite run_snoc.
    assert (Hex : (∃ r', r' ∈ rows ++ [r] ∧ in_slice k r' = true) ↔
                  (∃ r', r' ∈ rows ∧ in_slice k r' = true) ∨ in_slice k r = true).
    { split.
      - intros (r' & [Hin| ->%list_elem_of_singleton]%elem_of_app & Hk); eauto.
      - intros [(r' & Hin & Hk)|Hk].
        + exists r'. split; [apply elem_of_app; by left | done].
        + exists r. split; [apply elem_of_app; right; by apply list_elem_of_singleton | done]. }
    rewrite Hex. unfold in_slice.
    destruct (scored r) eqn:Hr.
    + apply scored_labels in Hr as (g & p & Hg & Hp).
      destruct (process_row_keys (run a rows) r g p k Hg Hp) as [-> ->].
      simpl. rewrite bool_decide_eq_true. by rewrite IHt, IHc.
    + rewrite process_row_unscored by done. simpl. rewrite IHt, IHc.
      split; (split; [by left | by intros [?|?]]).
Qed.

End Keys.

(** X8. When the loop ends, the two slice counters hold the same keys; a
    key is held exactly when some scored row fell in that bucket, it is one
    of the eight bucket names, and its total is at least 1. *)
Theorem slice_counter_keys (a : args) (rows : list row) (k : string) :
  let st := run a rows in
  (is_Some (slice_tot st !! k) ↔ is_Some (slice_cor st !! k)) ∧
  (is_Some (slice_tot st !! k) ↔ ∃ r, r ∈ rows ∧ in_slice k r = true) ∧
  (is_Some (slice_tot st !! k) → k ∈ slice_keys ∧ 1 ≤ count (slice_tot st) k).
Proof.
  intros st. subst st. destruct (run_keys a rows k) as [Ht Hc].
  split; [by rewrite Ht, Hc|]. split; [done|].
  intros (r & Hin & Hk)%Ht. split.
  - unfold in_slice in Hk. apply andb_true_iff in Hk as [_ Hk].
    apply bool_decide_eq_true in Hk. by apply slices_of_keys in Hk.
  - rewrite run_slice_tot_count.
    apply list_elem_of_In in Hin.
    assert (Hf : In r (List.filter (in_slice k) rows)) by (apply filter_In; done).
    destruct (List.filter (in_slice k) rows); [done | simpl; lia].
Qed.

Lemma slice_counter_keys_witness :
  "NEG::negation" ∈ slice_keys ∧
  1 ≤ count (slice_tot (run (Args "pred.jsonl" false 3)
                          [Row (Val "It rains") (Val "It does not rain") (Val 2%Z) (Val 2%Z)]))
            "NEG::negation".
Proof.
  apply (proj2 (proj2 (slice_counter_keys (Args "pred.jsonl" false 3)
           [Row (Val "It rains") (Val "It does not rain") (Val 2%Z) (Val 2%Z)]
           "NEG::negation"))).
  vm_compute. by eexists.
Defined.

(** ** The stored examples of wrong predictions *)

Section Errors.
Variable a : args.

Lemma add_slices_errors r b st ss k :
  NoDup ss →
  errors_of (foldl (add_slice a r b) st ss) k =
  if negb b && show_examples a && bool_decide (k ∈ ss) then
    if (Z.of_nat (length (errors_of st k)) <? examples_per_slice a)%Z
    then errors_of st k ++ [r] else errors_of st k
  else errors_of st k.
Proof.
  intros Hnd. revert st. induction Hnd as [|s ss Hs Hnd IH]; intros st.
  - case_bool_decide as Hin; [by apply elem_of_nil in Hin|].
    by rewrite andb_false_r.
  - change (foldl (add_slice a r b) st (s :: ss))
      with (foldl (add_slice a r b) (add_slice a r b st s) ss).
    rewrite IH. unfold errors_of, add_slice; simpl.
    destruct (negb b && show_examples a) eqn:E; simpl.
    + destruct (decide (k = s)) as [->|Hk].
      * rewrite (bool_decide_eq_false_2 _ Hs).
        rewrite bool_decide_eq_true_2 by left.
        destruct (_ <? _)%Z; by rewrite lookup_insert_eq.
      * assert (Hl : ∀ l, <[s:=l]> (slice_errs st) !! k = slice_errs st !! k)
          by (intros l; by apply lookup_insert_ne).
        destruct (Z.of_nat (length (default [] (slice_errs st !! s))) <? _)%Z;
          rewrite Hl; repeat case_bool_decide; try done.
        -- exfalso. apply H0. by right.
        -- exfalso. apply elem_of_cons in H0 as [?|?]; done.
        -- exfalso. apply H0. by right.
        -- exfalso. apply elem_of_cons in H0 as [?|?]; done.
    + done.
Qed.

Lemma is_wrong_labels r g p :
  gold r = Some g → pred r = Some p → is_wrong r = negb (g =? p)%Z.
Proof. unfold is_wrong. by intros -> ->. Qed.

Lemma process_row_errors st r g p k :
  gold r = Some g → pred r = Some p →
  errors_of (process_row a st r) k =
  if is_wrong r && show_examples a && bool_decide (k ∈ row_slices r) then
    if (Z.of_nat (length (errors_of st k)) <? examples_per_slice a)%Z
    then errors_of st k ++ [r] else errors_of st k
  else errors_of st k.
Proof.
  intros Hg Hp. rewrite (is_wrong_labels r g p Hg Hp).
  unfold process_row. unfold gold, pred in Hg, Hp. rewrite Hg, Hp.
  by rewrite add_slices_errors by apply slices_of_NoDup.
Qed.

Lemma take_snoc {A} (n : nat) (l : list A) x :
  take n (l ++ [x]) = if length l <? n then take n l ++ [x] else take n l.
Proof.
  destruct (Nat.ltb_spec (length l) n) as [Hlt|Hge].
  - rewrite !take_ge; [done | lia |]. rewrite length_app. simpl. lia.
  - by rewrite take_app_le.
Qed.

Lemma run_errors rows k :
  errors_of (run a rows) k =
  if show_examples a
  then take (Z.to_nat (examples_per_slice a))
            (List.filter (λ r, in_slice k r && is_wrong r) rows)
  else [].
Proof.
  induction rows as [|r rows IH] using rev_ind.
  - unfold errors_of. simpl. rewrite lookup_empty, take_nil. by destruct (show_examples a).
  - rewrite filter_snoc, run_snoc. unfold in_slice at 2. destruct (scored r) eqn:Hr.
    + apply scored_labels in Hr as (g & p & Hg & Hp).
      rewrite (process_row_errors _ r g p k Hg Hp), IH. simpl.
      destruct (show_examples a); [|by rewrite !andb_false_r].
      rewrite andb_true_r, (andb_comm (is_wrong r)).
      destruct (bool_decide (k ∈ row_slices r) && is_wrong r); [|by rewrite app_nil_r].
      rewrite take_snoc, length_take.
      set (n := Z.to_nat (examples_per_slice a)).
      set (F := List.filter _ rows).
      destruct (Nat.ltb_spec (length F) n) as [Hlt|Hge].
      * assert ((Z.of_nat (n `min` length F) <? examples_per_slice a)%Z = true) as ->
          by (apply Z.ltb_lt; lia).
        done.
      * assert ((Z.of_nat (n `min` length F) <? examples_per_slice a)%Z = false) as ->
          by (apply Z.ltb_ge; lia).
        done.
    + rewrite process_row_unscored by done. simpl. by rewrite app_nil_r.
Qed.

End Errors.

(** X9. When the loop ends, the examples stored for a bucket are the first
    [examples_per_slice] scored rows with a wrong prediction that fell in
    it, in the order of the file, when [--show_examples] is given, and none
    otherwise; a bound that is zero or negative stores none. *)
Theorem stored_errors (a : args) (rows : list row) (k : string) :
  let stored := errors_of (run a rows) k in
  stored =
    (if show_examples a
     then take (Z.to_nat (examples_per_slice a))
               (List.filter (λ r, in_slice k r && is_wrong r) rows)
     else []) ∧
  (Z.of_nat (length stored) ≤ Z.max 0 (examples_per_slice a))%Z ∧
  Forall (λ r, r ∈ rows ∧ in_slice k r = true ∧ is_wrong r = true) stored.
Proof.
  intros stored. subst stored. rewrite run_errors.
  split; [done|]. destruct (show_examples a); [|split; [simpl; lia | constructor]].
  split.
  - rewrite length_take. lia.
  - apply Forall_forall. intros r Hr.
    apply list_elem_of_In in Hr. apply list_elem_of_In, elem_of_take in Hr as (i & Hr & _).
    apply list_elem_of_lookup_2, list_elem_of_In, filter_In in Hr as [Hin Hr].
    apply andb_true_iff in Hr as [? ?]. split; [by apply list_elem_of_In | done].
Qed.

(** ** The report *)

Section Report.

Lemma div_ok (x y : nat) : y ≠ 0 → div x y = Ok [] (Z.of_nat x # Pos.of_nat y)%Q.
Proof. intros Hy. unfold div. by apply Nat.eqb_neq in Hy as ->. Qed.

Lemma bind_ok {A B} (m : res A) (f : A → res B) out v :
  m = Ok out v →
  m ≫= f = match f v with
           | Ok out' w => Ok (out ++ out') w
           | Raise out' e => Raise (out ++ out') e
           end.
Proof. by intros ->. Qed.

Lemma mapM_ok {A B} (f : A → res B) (g : A → B) l :
  (∀ x, x ∈ l → f x = Ok [] (g x)) → mapM f l = Ok [] (map g l).
Proof.
  induction l as [|x l IH]; intros Hf; [done|]. simpl.
  rewrite (bind_ok _ _ [] (g x)) by (apply Hf; left).
  rewrite (bind_ok _ _ [] (map g l)) by (apply IH; intros y Hy; apply Hf; by right).
  done.
Qed.

Lemma forM_ok {A} (f : A → res unit) (h : A → line) l :
  (∀ x, x ∈ l → f x = Ok [h x] tt) → forM_ l f = Ok (map h l) tt.
Proof.
  induction l as [|x l IH]; intros Hf; [done|]. simpl.
  rewrite (bind_ok _ _ [h x] tt) by (apply Hf; left).
  by rewrite IH by (intros y Hy; apply Hf; by right).
Qed.

Lemma print_errors_ok (a : args) (st : state) (items : list item) :
  (if show_examples a then
     forM_ (take 1 (sort_by acc_le items)) (λ '(k, n, acc),
       let errs := default [] (slice_errs st !! k) in
       if length errs =? 0 then mret tt
       else
         print (LErrorsOf k acc);;
         forM_ errs (λ ex, print (LError ex)))
   else mret tt) = Ok (error_lines a st items) tt.
Proof.
  unfold error_lines. destruct (show_examples a); [|done].
  destruct (sort_by acc_le items) as [|[[k n] acc] l]; [done|].
  change (take 1 ((k, n, acc) :: l)) with [(k, n, acc)]. simpl. unfold errors_of.
  destruct (length (default [] (slice_errs st !! k)) =? 0); [done|].
  rewrite (forM_ok _ LError) by done. simpl. by rewrite app_nil_r.
Qed.

Lemma print_group_ok (a : args) (st : state) (pfx title : string) :
  total st ≠ 0 →
  (∀ k n, slice_tot st !! k = Some n → n ≠ 0) →
  print_group a st pfx title = Ok (group_lines a st pfx title) tt.
Proof.
  intros Htot Hpos. unfold print_group.
  rewrite (bind_ok _ _ [] (map (group_item st)
     (filter (λ kn, String.prefix pfx kn.1 = true) (map_to_list (slice_tot st))))).
  2:{ apply mapM_ok. intros [k n] Hin.
      apply list_elem_of_filter in Hin as [_ Hin]. apply elem_of_map_to_list in Hin.
      by rewrite div_ok by eauto. }
  fold (group_items st pfx).
  rewrite (bind_ok _ _ [LTitle title] tt) by done.
  rewrite (bind_ok _ _ (map (item_line st) (group_items st pfx)) tt).
  2:{ apply forM_ok. intros [[k n] acc] _. by rewrite div_ok by done. }
  by rewrite print_errors_ok.
Qed.

End Report.

(** ** Sorting *)

Section Sorting.
Context {A : Type} (le : A → A → bool).

Lemma insert_by_perm x l : insert_by le x l ≡ₚ x :: l.
Proof.
  induction l as [|y l IH]; [done|]. simpl. destruct (le x y); [done|].
  rewrite IH. apply Permutation_swap.
Qed.

Lemma sort_by_perm l : sort_by le l ≡ₚ l.
Proof.
  induction l as [|x l IH]; [done|]. simpl.
  change (foldr (insert_by le) [] l) with (sort_by le l).
  by rewrite insert_by_perm, IH.
Qed.

Hypothesis le_total : ∀ x y, le x y = true ∨ le y x = true.

Lemma insert_by_HdRel z x l :
  le z x = true → HdRel (λ x y, le x y = true) z l →
  HdRel (λ x y, le x y = true) z (insert_by le x l).
Proof.
  intros Hzx Hz. destruct l as [|y l]; simpl; [by constructor|].
  destruct (le x y); constructor; [done|]. by inversion Hz.
Qed.

Lemma insert_by_sorted x l :
  Sorted (λ x y, le x y = true) l → Sorted (λ x y, le x y = true) (insert_by le x l).
Proof.
  induction 1 as [|y l Hl IH Hy]; simpl; [by repeat constructor|].
  destruct (le x y) eqn:E.
  - repeat constructor; done.
  - constructor; [done|]. apply insert_by_HdRel; [|done].
    destruct (le_total x y); congruence.
Qed.

Lemma sort_by_sorted l : Sorted (λ x y, le x y = true) (sort_by le l).
Proof.
  induction l as [|x l IH]; [constructor|]. simpl. by apply insert_by_sorted.
Qed.

Hypothesis le_trans : ∀ x y z, le x y = true → le y z = true → le x z = true.

(** The sort is stable: its first element is the first least element of the
    list. *)
Lemma sort_by_head_stable l x rest :
  sort_by le l = x :: rest →
  ∃ l1 l2, l = l1 ++ x :: l2 ∧
           (∀ y, y ∈ l1 → le y x = false) ∧ (∀ y, y ∈ l2 → le x y = true).
Proof.
  revert x rest. induction l as [|z l IH]; intros x rest Hs; [done|].
  simpl in Hs. change (foldr (insert_by le) [] l) with (sort_by le l) in Hs.
  destruct (sort_by le l) as [|h t] eqn:Hl.
  - assert (l = []) as ->.
    { apply Permutation_nil_r. by rewrite <- Hl, sort_by_perm. }
    simpl in Hs. injection Hs as <- <-. exists [], [].
    split; [done|]. split; intros y Hy; by apply elem_of_nil in Hy.
  - destruct (IH h t eq_refl) as (l1 & l2 & -> & H1 & H2).
    simpl in Hs. destruct (le z h) eqn:Hzh.
    + injection Hs as <- <-. exists [], (l1 ++ h :: l2).
      split; [done|]. split; [intros y Hy; by apply elem_of_nil in Hy|].
      intros y [Hy|[->|Hy]%elem_of_cons]%elem_of_app; [|done|].
      * apply (le_trans _ h); [done|].
        destruct (le_total h y) as [H|H]; [done|]. by rewrite (H1 y Hy) in H.
      * apply (le_trans _ h); [done|]. by apply H2.
    + injection Hs as <- <-. exists (z :: l1), l2.
      split; [done|]. split; [|done].
      intros y [->|Hy]%elem_of_cons; [done|]. by apply H1.
Qed.

End Sorting.

Lemma coverage_le_total (x y : item) : coverage_le x y = true ∨ coverage_le y x = true.
Proof.
  destruct x as [[kx nx] ax], y as [[ky ny] ay]. simpl.
  destruct (Nat.ltb_spec ny nx); [by left|].
  destruct (Nat.ltb_spec nx ny); [by right|].
  assert (nx = ny) as -> by lia. rewrite Nat.eqb_refl. simpl.
  apply String.leb_total.
Qed.

Lemma acc_le_total (x y : item) : acc_le x y = true ∨ acc_le y x = true.
Proof.
  unfold acc_le. rewrite !Qle_bool_iff.
  destruct (Qlt_le_dec x.2 y.2); [left; by apply Qlt_le_weak | by right].
Qed.

(** ** When [main] returns, and what it prints *)

Section Outcome.
Variable a : args.

Lemma run_slice_tot_nonzero rows k n :
  slice_tot (run a rows) !! k = Some n → n ≠ 0.
Proof.
  intros Hk. assert (Hc : count (slice_tot (run a rows)) k = n)
    by (unfold count; by rewrite Hk).
  assert (Hs : is_Some (slice_tot (run a rows) !! k)) by eauto.
  apply (proj1 (run_keys a rows k)) in Hs as (r & Hin & Hr).
  rewrite run_slice_tot_count in Hc. apply list_elem_of_In in Hin.
  assert (Hf : In r (List.filter (in_slice k) rows)) by (by apply filter_In).
  destruct (List.filter (in_slice k) rows); [done | simpl in Hc; lia].
Qed.

Lemma run_total_nonzero rows :
  List.filter scored rows ≠ [] → total (run a rows) ≠ 0.
Proof. rewrite run_total. by destruct (List.filter scored rows). Qed.

Lemma main_scored_returns rows :
  List.filter scored rows ≠ [] → main a rows = Ok (report a (run a rows)) tt.
Proof.
  intros Hrows. pose proof (run_total_nonzero rows Hrows) as Htot.
  unfold main, report.
  rewrite (bind_ok _ _ [LFile (pred_file a)] tt) by done.
  rewrite (bind_ok _ _ [LScored (total (run a rows))] tt) by done.
  rewrite (bind_ok _ _ [] _ (div_ok _ _ Htot)).
  rewrite (bind_ok _ _ [LAccuracy (Z.of_nat (correct (run a rows)) #
                                   Pos.of_nat (total (run a rows)))] tt) by done.
  rewrite (bind_ok _ _ _ tt
    (print_group_ok a _ "NEG::" _ Htot (run_slice_tot_nonzero rows))).
  rewrite (bind_ok _ _ _ tt
    (print_group_ok a _ "LEN::" _ Htot (run_slice_tot_nonzero rows))).
  rewrite (print_group_ok a _ "OVL::" _ Htot (run_slice_tot_nonzero rows)).
  simpl. by rewrite <- !app_assoc.
Qed.

End Outcome.

(** X10. [main] raises only when no row is scored: then it stops with
    [ZeroDivisionError] after the count line.  With a scored row it
    returns, and prints the three header lines and the three tables; no
    division in a table can fail. *)
Theorem main_outcome (a : args) (rows : list row) :
  main a rows =
  match List.filter scored rows with
  | [] => Raise [LFile (pred_file a); LScored 0] ZeroDivisionError
  | _ :: _ => Ok (report a (run a rows)) tt
  end.
Proof.
  destruct (List.filter scored rows) as [|r l] eqn:E.
  - by apply main_nothing_scored_raises.
  - apply main_scored_returns. by rewrite E.
Qed.

Section Tables.
Variable a : args.

Lemma group_items_perm st pfx :
  group_items st pfx ≡ₚ
  map (group_item st)
    (filter (λ kn, String.prefix pfx kn.1 = true) (map_to_list (slice_tot st))).
Proof. apply sort_by_perm. Qed.

Lemma elem_of_group_items st pfx k n acc :
  (k, n, acc) ∈ group_items st pfx ↔
  slice_tot st !! k = Some n ∧ String.prefix pfx k = true ∧
  acc = (Z.of_nat (count (slice_cor st) k) # Pos.of_nat n)%Q.
Proof.
  rewrite group_items_perm, list_elem_of_In, in_map_iff. split.
  - intros ([k' n'] & [= <- <- <-] & Hin).
    apply list_elem_of_In, list_elem_of_filter in Hin as [Hp Hin].
    by apply elem_of_map_to_list in Hin.
  - intros (Hk & Hp & ->). exists (k, n). split; [done|].
    apply list_elem_of_In, list_elem_of_filter. split; [done|].
    by apply elem_of_map_to_list.
Qed.

Lemma group_items_keys_NoDup st pfx : NoDup (map (λ x : item, x.1.1) (group_items st pfx)).
Proof.
  rewrite group_items_perm, map_map. simpl.
  apply (NoDup_fmap_2_strong fst).
  - intros [k n] [k' n'] Hin Hin' Hk. simpl in Hk. subst k'.
    apply list_elem_of_filter in Hin as [_ Hin], Hin' as [_ Hin'].
    apply elem_of_map_to_list in Hin, Hin'. congruence.
  - apply NoDup_filter, NoDup_map_to_list.
Qed.

End Tables.

Lemma Sorted_weaken {A} (R R' : A → A → Prop) l :
  (∀ x y, R x y → R' x y) → Sorted R l → Sorted R' l.
Proof.
  intros HR. induction 1 as [|x l Hl IH Hx]; constructor; [done|].
  destruct Hx; constructor. by apply HR.
Qed.

(** X11. With a scored row, a table of [print_group] has one line for each
    bucket of its dimension that holds a scored row, with the bucket's
    total and its share of correct rows; the lines come by descending total
    and, at equal totals, by ascending key. *)
Theorem print_group_table (a : args) (rows : list row) (pfx title : string) :
  List.filter scored rows ≠ [] →
  let st := run a rows in
  let items := group_items st pfx in
  print_group a st pfx title =
    Ok (LTitle title :: map (item_line st) items ++ error_lines a st items) tt ∧
  (∀ k n acc, (k, n, acc) ∈ items ↔
     slice_tot st !! k = Some n ∧ String.prefix pfx k = true ∧
     acc = (Z.of_nat (count (slice_cor st) k) # Pos.of_nat n)%Q) ∧
  NoDup (map (λ x : item, x.1.1) items) ∧
  Sorted (λ x y : item,
            y.1.2 < x.1.2 ∨ (x.1.2 = y.1.2 ∧ String.leb x.1.1 y.1.1 = true)) items.
Proof.
  intros Hrows st items. subst st items.
  split; [|split; [|split]].
  - apply print_group_ok; [by apply run_total_nonzero | apply run_slice_tot_nonzero].
  - apply elem_of_group_items.
  - apply group_items_keys_NoDup.
  - eapply Sorted_weaken; [|apply sort_by_sorted, coverage_le_total].
    intros [[kx nx] ax] [[ky ny] ay]. simpl.
    intros [Hlt|[Heq Hle]%andb_true_iff]%orb_true_iff.
    + left. by apply Nat.ltb_lt.
    + right. by apply Nat.eqb_eq in Heq.
Qed.

Lemma print_group_table_witness :
  print_group (Args "pred.jsonl" false 3)
    (run (Args "pred.jsonl" false 3)
       [Row (Val "It rains") (Val "It does not rain") (Val 2%Z) (Val 2%Z);
        Row (Val "A dog") (Val "A dog") (Val 0%Z) (Val 1%Z);
        Row (Val "A cat") (Val "A cat") (Val 0%Z) (Val 0%Z)])
    "NEG::" "Negation slices (hypothesis)" =
  Ok [LTitle "Negation slices (hypothesis)";
      LSlice "NEG::no_negation" 2 (200 # 3) (1 # 2);
      LSlice "NEG::negation" 1 (100 # 3) (1 # 1)] tt.
Proof.
  apply (print_group_table (Args "pred.jsonl" false 3)
       [Row (Val "It rains") (Val "It does not rain") (Val 2%Z) (Val 2%Z);
        Row (Val "A dog") (Val "A dog") (Val 0%Z) (Val 1%Z);
        Row (Val "A cat") (Val "A cat") (Val 0%Z) (Val 0%Z)]
       "NEG::" "Negation slices (hypothesis)").
  by vm_compute.
Defined.

Lemma acc_le_trans (x y z : item) :
  acc_le x y = true → acc_le y z = true → acc_le x z = true.
Proof. unfold acc_le. rewrite !Qle_bool_iff. apply Qle_trans. Qed.

Lemma sort_by_acc_head (items : list item) x rest :
  sort_by acc_le items = x :: rest →
  ∃ l1 l2, items = l1 ++ x :: l2 ∧
           (∀ y, y ∈ l1 → (x.2 < y.2)%Q) ∧ (∀ y, y ∈ l2 → (x.2 <= y.2)%Q).
Proof.
  intros Hs.
  apply (sort_by_head_stable acc_le acc_le_total acc_le_trans) in Hs
    as (l1 & l2 & -> & H1 & H2).
  exists l1, l2. split; [done|]. split; intros y Hy.
  - apply Qnot_le_lt. intros Hle. apply Qle_bool_iff in Hle.
    specialize (H1 y Hy). unfold acc_le in H1. congruence.
  - apply Qle_bool_iff. by apply H2.
Qed.

(** X12. With a scored row, the examples [print_group] shows under a table
    are fixed as follows.  Without [--show_examples], and under a table
    without lines, none are shown.  With the flag, the bucket looked at is
    the first line of the table whose accuracy is the lowest: every line
    above it has a greater accuracy, and no line below it a lower one.
    When that bucket has stored examples, a heading with the bucket's key
    and accuracy is shown, then the stored examples in their order; when it
    has none, nothing is shown. *)
Theorem print_group_examples (a : args) (rows : list row) (pfx title : string) :
  List.filter scored rows ≠ [] →
  let st := run a rows in
  let items := group_items st pfx in
  ∃ shown,
    print_group a st pfx title =
      Ok (LTitle title :: map (item_line st) items ++ shown) tt ∧
    (show_examples a = false → shown = []) ∧
    (items = [] → shown = []) ∧
    (show_examples a = true → items ≠ [] →
     ∃ x l1 l2,
       items = l1 ++ x :: l2 ∧
       (∀ y, y ∈ l1 → (x.2 < y.2)%Q) ∧
       (∀ y, y ∈ l2 → (x.2 <= y.2)%Q) ∧
       shown = match errors_of st x.1.1 with
               | [] => []
               | _ :: _ => LErrorsOf x.1.1 x.2 :: map LError (errors_of st x.1.1)
               end).
Proof.
  intros Hrows st items. exists (error_lines a st items). split.
  { apply print_group_ok; [by apply run_total_nonzero | apply run_slice_tot_nonzero]. }
  unfold error_lines. split; [by intros ->|].
  split; [intros ->; by destruct (show_examples a)|].
  intros -> Hne.
  destruct (sort_by acc_le items) as [|x l] eqn:Hs.
  { destruct Hne. apply Permutation_nil_r. by rewrite <- Hs, sort_by_perm. }
  apply sort_by_acc_head in Hs as (l1 & l2 & Hitems & H1 & H2).
  exists x, l1, l2. repeat (split; [done|]).
  by destruct (errors_of st x.1.1).
Qed.

(** X12 at a file of three rows: the table has the short bucket, with two
    right rows, above the medium one, with one wrong row; the examples
    shown are those of the medium bucket. *)
Lemma print_group_examples_witness :
  print_group (Args "pred.jsonl" true 3)
    (run (Args "pred.jsonl" true 3)
       [Row (Val "A dog") (Val "A dog") (Val 0%Z) (Val 0%Z);
        Row (Val "A cat") (Val "A cat") (Val 0%Z) (Val 0%Z);
        Row (Val "Rain") (Val "It did rain for six days") (Val 0%Z) (Val 1%Z)])
    "LEN::" "Hypothesis length buckets" =
  Ok [LTitle "Hypothesis length buckets";
      LSlice "LEN::short(<=5)" 2 (200 # 3) (2 # 2);
      LSlice "LEN::medium(6-15)" 1 (100 # 3) (0 # 1);
      LErrorsOf "LEN::medium(6-15)" (0 # 1);
      LError (Row (Val "Rain") (Val "It did rain for six days") (Val 0%Z) (Val 1%Z))] tt.
Proof.
  destruct (print_group_examples (Args "pred.jsonl" true 3)
       [Row (Val "A dog") (Val "A dog") (Val 0%Z) (Val 0%Z);
        Row (Val "A cat") (Val "A cat") (Val 0%Z) (Val 0%Z);
        Row (Val "Rain") (Val "It did rain for six days") (Val 0%Z) (Val 1%Z)]
       "LEN::" "Hypothesis length buckets") as (shown & Hp & _ & _ & Hshown);
    [by vm_compute|].
  destruct Hshown as (x & l1 & l2 & Hitems & H1 & H2 & ->);
    [reflexivity | by vm_compute |].
  rewrite Hp. clear Hp. vm_compute in Hitems.
  destruct l1 as [|y1 [|y2 l1]].
  - injection Hitems as <- <-. exfalso.
    eapply (Qle_not_lt _ _ (H2 _ (list_elem_of_here _ _))). reflexivity.
  - injection Hitems as <- <- <-. by vm_compute.
  - injection Hitems as _ _ Hnil. by destruct l1.
Defined.

(** ** The table of confusions *)

Example ex_str : (str 0, str (-5), str 120) = ("0", "-5", "120").
Proof. reflexivity. Qed.

Example ex_fmt_label :
  (fmt_label 2 {[ 0%Z := "entailment"; 2%Z := "contradiction" ]},
   fmt_label 7 {[ 0%Z := "entailment"; 2%Z := "contradiction" ]}) =
  ("2 (contradiction)", "7").
Proof. by vm_compute. Qed.

Example ex_confusions :
  print_confusions true 10 {[ 0%Z := "e"; 1%Z := "n" ]}
    (conf_items
       [Row Absent Absent (Val 0%Z) (Val 1%Z); Row Absent Absent (Val 1%Z) (Val 1%Z);
        Row Absent Absent (Val 2%Z) (Val 0%Z); Row Absent Absent (Val 2%Z) (Val 0%Z);
        Row Absent Absent (Val 1%Z) (Val 0%Z)]) =
  [ConfusionLine "2" "0 (e)" 2; ConfusionLine "0 (e)" "1 (n)" 1;
   ConfusionLine "1 (n)" "0 (e)" 1].
Proof. by vm_compute. Qed.

Section OrderedCounter.
Implicit Types (c : list (Z * Z * nat)) (k : Z * Z).

Lemma ordered_lookup_incr c k k' :
  ordered_lookup (ordered_incr c k) k' =
  if decide (k = k') then Some (default 0 (ordered_lookup c k) + 1)
  else ordered_lookup c k'.
Proof.
  induction c as [|[k0 n] c IH]; simpl.
  - repeat case_decide; done.
  - destruct (decide (k0 = k)) as [->|Hk0]; simpl.
    + repeat case_decide; congruence.
    + rewrite IH. repeat case_decide; congruence.
Qed.

Lemma ordered_incr_keys c k :
  (ordered_incr c k).*1 = if decide (k ∈ c.*1) then c.*1 else c.*1 ++ [k].
Proof.
  induction c as [|[k0 n] c IH].
  - destruct (decide (k ∈ ([] : list (Z * Z * nat)).*1)) as [Hin|_]; [|done].
    by apply elem_of_nil in Hin.
  - simpl. destruct (decide (k0 = k)) as [->|Hk0]; csimpl.
    + rewrite decide_True; [done | by left].
    + rewrite IH. destruct (decide (k ∈ c.*1)) as [Hin|Hin].
      * rewrite decide_True; [done | by right].
      * rewrite decide_False; [done|]. intros [?|?]%elem_of_cons; congruence.
Qed.

Lemma ordered_incr_NoDup c k : NoDup c.*1 → NoDup (ordered_incr c k).*1.
Proof.
  intros Hnd. rewrite ordered_incr_keys. case_decide as Hin; [done|].
  apply NoDup_app. split; [done|]. split; [|apply NoDup_singleton].
  intros x Hx ->%list_elem_of_singleton. done.
Qed.

Lemma elem_of_ordered c k n :
  NoDup c.*1 → (k, n) ∈ c ↔ ordered_lookup c k = Some n.
Proof.
  induction c as [|[k0 n0] c IH]; simpl; intros Hnd.
  - split; [by intros ?%elem_of_nil | done].
  - apply NoDup_cons in Hnd as [Hk0 Hnd]. rewrite elem_of_cons, IH by done.
    destruct (decide (k0 = k)) as [->|Hne].
    + split.
      * intros [Heq|Hl]; [congruence|].
        destruct Hk0. apply IH in Hl; [|done].
        apply list_elem_of_fmap. by exists (k, n).
      * intros Heq. left. congruence.
    + split; [|by right]. intros [Heq|Hl]; [congruence | done].
Qed.

Lemma sum_filter_ordered_incr (f : Z * Z → bool) c k :
  sum_list (List.filter (λ x, f x.1) (ordered_incr c k)).*2 =
  sum_list (List.filter (λ x, f x.1) c).*2 + (if f k then 1 else 0).
Proof.
  induction c as [|[k0 n] c IH]; simpl.
  - destruct (f k); simpl; lia.
  - destruct (decide (k0 = k)) as [->|Hk0]; simpl.
    + destruct (f k); simpl; lia.
    + destruct (f k0); csimpl; rewrite IH; lia.
Qed.

End OrderedCounter.

Section ConfItems.
Variable a : args.

Lemma conf_items_snoc rows r :
  conf_items (rows ++ [r]) =
  match gold r, pred r with
  | Some g, Some p => ordered_incr (conf_items rows) (g, p)
  | _, _ => conf_items rows
  end.
Proof. unfold conf_items. by rewrite foldl_app. Qed.

Lemma conf_items_unscored rows r :
  scored r = false → conf_items (rows ++ [r]) = conf_items rows.
Proof.
  intros Hr. rewrite conf_items_snoc. unfold scored in Hr.
  by destruct (gold r), (pred r).
Qed.

Lemma conf_items_scored rows r g p :
  gold r = Some g → pred r = Some p →
  conf_items (rows ++ [r]) = ordered_incr (conf_items rows) (g, p).
Proof. intros Hg Hp. by rewrite conf_items_snoc, Hg, Hp. Qed.

Lemma conf_items_lookup rows k :
  ordered_lookup (conf_items rows) k = conf (run a rows) !! k.
Proof.
  revert k. induction rows as [|r rows IH] using rev_ind; intros k; [done|].
  rewrite run_snoc. destruct (scored r) eqn:Hr.
  - apply scored_labels in Hr as (g & p & Hg & Hp).
    rewrite (conf_items_scored rows r g p), (process_row_conf a _ r g p) by done.
    rewrite ordered_lookup_incr. unfold incr, count. rewrite lookup_insert.
    case_decide; by rewrite IH.
  - by rewrite conf_items_unscored, process_row_unscored.
Qed.

Lemma conf_items_NoDup rows : NoDup (conf_items rows).*1.
Proof.
  induction rows as [|r rows IH] using rev_ind; [constructor|].
  rewrite conf_items_snoc. destruct (gold r), (pred r); try done.
  by apply ordered_incr_NoDup.
Qed.

Lemma conf_items_elem rows k n :
  (k, n) ∈ conf_items rows ↔ conf (run a rows) !! k = Some n.
Proof. rewrite <- conf_items_lookup. apply elem_of_ordered, conf_items_NoDup. Qed.

Lemma ordered_incr_pos c k :
  Forall (λ x : Z * Z * nat, 1 ≤ x.2) c →
  Forall (λ x : Z * Z * nat, 1 ≤ x.2) (ordered_incr c k).
Proof.
  induction 1 as [|[k0 n] c Hn Hc IH]; simpl; [repeat constructor|].
  case_decide; constructor; simpl in *; done || lia.
Qed.

Lemma conf_items_pos rows : Forall (λ x : Z * Z * nat, 1 ≤ x.2) (conf_items rows).
Proof.
  induction rows as [|r rows IH] using rev_ind; [constructor|].
  rewrite conf_items_snoc. destruct (gold r), (pred r); try done.
  by apply ordered_incr_pos.
Qed.

Lemma conf_items_count rows g p n :
  (g, p, n) ∈ conf_items rows →
  n = length (List.filter (scored_as g p) rows) ∧ 1 ≤ n.
Proof.
  intros Hin. split.
  - rewrite <- (run_conf_count a). apply conf_items_elem in Hin.
    unfold count. by rewrite Hin.
  - pose proof (conf_items_pos rows) as Hpos. rewrite Forall_forall in Hpos.
    by apply Hpos in Hin.
Qed.

End ConfItems.

Lemma conf_items_count_iff (rows : list row) g p n :
  (g, p, n) ∈ conf_items rows ↔
  n = length (List.filter (scored_as g p) rows) ∧ 1 ≤ n.
Proof.
  set (a := Args "" false 0).
  split; [apply (conf_items_count a)|]. intros [-> Hn].
  apply (conf_items_elem a). rewrite <- (run_conf_count a) in Hn |- *.
  unfold count in *. destruct (conf (run a rows) !! (g, p)); [done | simpl in Hn; lia].
Qed.

(** X13. [conf.items()] lists, each once and in the order of their first
    scored row, exactly the pairs [conf] holds, each with the number of
    scored rows that have that pair, which is at least 1. *)
Theorem conf_items_refine (a : args) (rows : list row) :
  NoDup (conf_items rows).*1 ∧
  (∀ k n, (k, n) ∈ conf_items rows ↔ conf (run a rows) !! k = Some n) ∧
  (∀ g p n, (g, p, n) ∈ conf_items rows ↔
     n = length (List.filter (scored_as g p) rows) ∧ 1 ≤ n) ∧
  (∀ r, (conf_items (rows ++ [r])).*1 =
        match gold r, pred r with
        | Some g, Some p =>
            if decide ((g, p) ∈ (conf_items rows).*1) then (conf_items rows).*1
            else (conf_items rows).*1 ++ [(g, p)]
        | _, _ => (conf_items rows).*1
        end).
Proof.
  split; [apply conf_items_NoDup|]. split; [apply conf_items_elem|]. split.
  - apply conf_items_count_iff.
  - intros r. rewrite conf_items_snoc. destruct (gold r), (pred r); try done.
    apply ordered_incr_keys.
Qed.

Section BadConfusions.
Implicit Types (c : list (Z * Z * nat)).

Lemma count_ge_total (x y : Z * Z * nat) : count_ge x y = true ∨ count_ge y x = true.
Proof. unfold count_ge. rewrite !Nat.leb_le. lia. Qed.

Lemma filter_keys_NoDup (f : Z * Z * nat → bool) c :
  NoDup c.*1 → NoDup (List.filter f c).*1.
Proof.
  induction c as [|x c IH]; [done|]. csimpl. intros [Hx Hc]%NoDup_cons.
  destruct (f x); csimpl; [|by apply IH]. apply NoDup_cons. split; [|by apply IH].
  intros (y & Hy & Hin)%list_elem_of_fmap. apply Hx.
  apply list_elem_of_fmap. exists y. split; [done|].
  apply list_elem_of_In in Hin. apply filter_In in Hin as [Hin _].
  by apply list_elem_of_In.
Qed.

Lemma elem_of_bad_confusions c g p n :
  (g, p, n) ∈ bad_confusions c ↔ g ≠ p ∧ (g, p, n) ∈ c.
Proof.
  unfold bad_confusions. rewrite sort_by_perm, !list_elem_of_In, filter_In. simpl.
  rewrite negb_true_iff, Z.eqb_neq. tauto.
Qed.

Lemma bad_confusions_NoDup c : NoDup c.*1 → NoDup (bad_confusions c).*1.
Proof.
  intros Hnd. unfold bad_confusions. rewrite sort_by_perm. by apply filter_keys_NoDup.
Qed.

Lemma bad_confusions_sorted c :
  StronglySorted (λ x y : Z * Z * nat, y.2 ≤ x.2) (bad_confusions c).
Proof.
  apply Sorted_StronglySorted; [intros x y z; lia|].
  eapply Sorted_weaken; [|apply sort_by_sorted, count_ge_total].
  intros x y. unfold count_ge. by rewrite Nat.leb_le.
Qed.

Lemma length_slice_to {A} (n : Z) (l : list A) :
  length (slice_to n l) =
  if (0 <=? n)%Z then Z.to_nat n `min` length l else length l - Z.to_nat (- n).
Proof. unfold slice_to. destruct (0 <=? n)%Z; rewrite length_take; lia. Qed.

Lemma slice_to_prefix {A} (n : Z) (l : list A) :
  slice_to n l = take (length (slice_to n l)) l.
Proof.
  unfold slice_to. destruct (0 <=? n)%Z; rewrite length_take.
  - destruct (Nat.min_spec (Z.to_nat n) (length l)) as [[Hlt ->]|[Hge ->]]; [done|].
    by rewrite !take_ge by lia.
  - by rewrite Nat.min_l by lia.
Qed.

End BadConfusions.

(** X14. The table of confusions lists pairs with different labels only,
    each at most once and with the number of scored rows that have that
    pair, in descending order of that number.  It shows the first
    [top_confusions] of them; a negative [top_confusions] leaves out that
    many from the end instead.  Without [--show_confusions] it is empty. *)
Theorem confusion_table (show : bool) (top : Z) (id2name : gmap Z string)
    (rows : list row) :
  let bad := bad_confusions (conf_items rows) in
  let shown := slice_to top bad in
  (∀ g p n, (g, p, n) ∈ bad ↔
     g ≠ p ∧ n = length (List.filter (scored_as g p) rows) ∧ 1 ≤ n) ∧
  NoDup bad.*1 ∧
  StronglySorted (λ x y : Z * Z * nat, y.2 ≤ x.2) bad ∧
  shown = take (length shown) bad ∧
  length shown =
    (if (0 <=? top)%Z then Z.to_nat top `min` length bad
     else length bad - Z.to_nat (- top)) ∧
  print_confusions show top id2name (conf_items rows) =
    (if show
     then map (λ x, ConfusionLine (fmt_label x.1.1 id2name) (fmt_label x.1.2 id2name) x.2)
              shown
     else []).
Proof.
  intros bad shown. subst bad shown.
  split; [|split; [|split; [|split; [|split]]]].
  - intros g p n. rewrite elem_of_bad_confusions.
    pose proof (conf_items_count_iff rows g p n) as Hc. tauto.
  - apply bad_confusions_NoDup, (conf_items_NoDup rows).
  - apply bad_confusions_sorted.
  - apply slice_to_prefix.
  - apply length_slice_to.
  - done.
Qed.

Lemma wrong_confusions_sum (rows : list row) :
  sum_list (List.filter (λ x : Z * Z * nat, negb (x.1.1 =? x.1.2)%Z) (conf_items rows)).*2 =
  length (List.filter is_wrong rows).
Proof.
  induction rows as [|r rows IH] using rev_ind; [done|].
  rewrite filter_snoc, length_app, <- IH, conf_items_snoc. unfold is_wrong.
  destruct (gold r) as [g|], (pred r) as [p|]; simpl; try lia.
  rewrite (sum_filter_ordered_incr (λ k, negb (k.1 =? k.2)%Z)). simpl.
  by destruct (g =? p)%Z.
Qed.

Lemma scored_right_wrong (rows : list row) :
  length (List.filter scored rows) =
  length (List.filter is_right rows) + length (List.filter is_wrong rows).
Proof.
  induction rows as [|r rows IH]; [done|]. simpl.
  destruct (scored r) eqn:Hs, (is_right r) eqn:Hr, (is_wrong r) eqn:Hw;
    simpl; try lia; exfalso;
    unfold scored, is_right, is_wrong in Hs, Hr, Hw;
    destruct (gold r) as [g|], (pred r) as [p|]; try done;
    by destruct (g =? p)%Z.
Qed.

(** X15. The counts of all pairs with different labels add up to the number
    of scored rows with a wrong prediction, which is [total - correct]. *)
Theorem bad_confusions_sum (a : args) (rows : list row) :
  sum_list (bad_confusions (conf_items rows)).*2 = length (List.filter is_wrong rows) ∧
  length (List.filter is_wrong rows) = total (run a rows) - correct (run a rows).
Proof.
  split.
  - unfold bad_confusions. rewrite sort_by_perm. apply wrong_confusions_sum.
  - rewrite run_total, run_correct, scored_right_wrong. lia.
Qed.

(** ** The label map *)

Example ex_parse_default :
  parse_label_map (Some "0:entailment,1:neutral,2:contradiction") =
  Some {[ 0%Z := "entailment"; 1%Z := "neutral"; 2%Z := "contradiction" ]}.
Proof. by vm_compute. Qed.

Example ex_parse_spaces :
  parse_label_map (Some " 0 : a , , 1:b,") = Some {[ 0%Z := "a"; 1%Z := "b" ]}.
Proof. by vm_compute. Qed.

Example ex_parse_literals :
  parse_label_map (Some "1_0:a,+1:b,-0:z,007:c") =
  Some {[ 10%Z := "a"; 1%Z := "b"; 0%Z := "z"; 7%Z := "c" ]}.
Proof. by vm_compute. Qed.

Example ex_parse_errors :
  map parse_label_map
    [Some "0"; Some "0:a:b"; Some "x:a"; Some ":a"; Some "1__0:a"; Some "_1:a";
     Some "1_:a"; Some "- 1:a"; Some "0:a;1:b"] =
  [None; None; None; None; None; None; None; None; None].
Proof. by vm_compute. Qed.

Example ex_parse_empty : (parse_label_map None, parse_label_map (Some "")) = (Some ∅, Some ∅).
Proof. by vm_compute. Qed.

Section Strip.
Implicit Types (s : list ascii) (c : ascii).

Lemma rev_reverse {A} (l : list A) : rev l = reverse l.
Proof. induction l as [|x l IH]; [done|]. simpl. by rewrite reverse_cons, IH. Qed.

Lemma lstrip_id s : negb (from_option is_space false (head s)) = true → lstrip s = s.
Proof. destruct s as [|c s]; [done|]. simpl. by destruct (is_space c). Qed.

(** A text that neither starts nor ends with white space is left as it is. *)
Lemma strip_id s :
  from_option is_space false (head s) = false →
  from_option is_space false (last s) = false →
  strip s = s.
Proof.
  intros Hh Hl. unfold strip.
  rewrite (lstrip_id s) by (by rewrite Hh).
  rewrite lstrip_id, rev_involutive; [done|].
  rewrite rev_reverse, head_reverse. by rewrite Hl.
Qed.

Lemma lstrip_head s : from_option is_space false (head (lstrip s)) = false.
Proof.
  induction s as [|c s IH]; [done|]. simpl. by destruct (is_space c) eqn:E; simpl.
Qed.

Lemma strip_last s : from_option is_space false (last (strip s)) = false.
Proof.
  unfold strip. rewrite rev_reverse, last_reverse. apply lstrip_head.
Qed.

Lemma strip_fixed_last s : strip s = s → from_option is_space false (last s) = false.
Proof. intros <-. apply strip_last. Qed.

End Strip.

Section Split.
Variable sep : ascii.
Implicit Types (s : list ascii).

Lemma split_nonempty s : split sep s ≠ [].
Proof.
  destruct s as [|c s]; simpl; [done|].
  destruct (Ascii.eqb c sep); [done|]. by destruct (split sep s).
Qed.

(** A text without the separator is one piece. *)
Lemma split_none s : sep ∉ s → split sep s = [s].
Proof.
  induction s as [|c s IH]; [done|]. intros Hs. simpl.
  destruct (Ascii.eqb_spec c sep) as [->|Hc]; [destruct Hs; by left|].
  rewrite IH; [done|]. intros Hin. apply Hs. by right.
Qed.

(** The first piece ends at the first separator. *)
Lemma split_app s1 s2 : sep ∉ s1 → split sep (s1 ++ sep :: s2) = s1 :: split sep s2.
Proof.
  induction s1 as [|c s1 IH]; intros Hs; simpl.
  - by rewrite Ascii.eqb_refl.
  - destruct (Ascii.eqb_spec c sep) as [->|Hc]; [destruct Hs; by left|].
    rewrite IH; [done|]. intros Hin. apply Hs. by right.
Qed.

Lemma split_concat (ss : list string) :
  ss ≠ [] → Forall (λ x, sep ∉ list_ascii_of_string x) ss →
  split sep (list_ascii_of_string (String.concat (String sep "") ss)) =
  map list_ascii_of_string ss.
Proof.
  intros Hne Hss. induction Hss as [|x ss Hx Hss IH]; [done|].
  destruct ss as [|y ss]; [by apply split_none|].
  change (String.concat (String sep "") (x :: y :: ss))
    with (x +:+ String sep (String.concat (String sep "") (y :: ss))).
  rewrite list_ascii_of_string_app.
  change (list_ascii_of_string (String sep ?t)) with (sep :: list_ascii_of_string t).
  rewrite split_app by done. by rewrite IH.
Qed.

End Split.

Section Decimal.

Lemma uint_digits (d : Decimal.uint) :
  Forall (λ c, is_digit c = true) (list_ascii_of_string (NilEmpty.string_of_uint d)).
Proof. induction d; simpl; constructor; done. Qed.

Lemma uint_nonempty (d : Decimal.uint) :
  d ≠ Decimal.Nil → list_ascii_of_string (NilEmpty.string_of_uint d) ≠ [].
Proof. by destruct d. Qed.

Lemma int_digits_all (b : bool) (l : list ascii) :
  Forall (λ c, is_digit c = true) l → l ≠ [] ∨ b = true → int_digits b l = Some l.
Proof.
  intros Hl. revert b. induction Hl as [|c l Hc Hl IH]; intros b Hb.
  - destruct Hb as [?| ->]; done.
  - simpl. rewrite Hc, IH; [done | by right].
Qed.

Lemma int_of_digits_uint (d : Decimal.uint) :
  int_of_digits (list_ascii_of_string (NilEmpty.string_of_uint d)) = Some (Z.of_uint d).
Proof.
  unfold int_of_digits. by rewrite string_of_list_ascii_of_string, NilEmpty.usu.
Qed.

(** [str] writes a minus sign for a negative number, then at least one
    digit. *)
Lemma str_form (k : Z) :
  ∃ d, d ≠ Decimal.Nil ∧ Z.of_uint d = Z.abs k ∧
       str k = (if (k <? 0)%Z then "-" else "") +:+ NilEmpty.string_of_uint d.
Proof.
  destruct k as [|p|p].
  - by exists (Decimal.D0 Decimal.Nil).
  - exists (Pos.to_uint p). pose proof (DecimalPos.Unsigned.to_uint_nonnil p) as Hp.
    split; [done|]. split.
    + unfold Z.of_uint. by rewrite DecimalPos.Unsigned.of_to.
    + unfold str. simpl. by destruct (Pos.to_uint p).
  - exists (Pos.to_uint p). pose proof (DecimalPos.Unsigned.to_uint_nonnil p) as Hp.
    split; [done|]. split.
    + unfold Z.of_uint. by rewrite DecimalPos.Unsigned.of_to.
    + unfold str. simpl. by destruct (Pos.to_uint p).
Qed.

Lemma digit_not_space c : is_digit c = true → is_space c = false.
Proof. by destruct c as [[] [] [] [] [] [] [] []]. Qed.

Lemma digit_not_sign c :
  is_digit c = true → Ascii.eqb c "-" = false ∧ Ascii.eqb c "+" = false.
Proof. by destruct c as [[] [] [] [] [] [] [] []]. Qed.

Lemma Forall_head_last {A} (P : A → Prop) (l : list A) x :
  Forall P l → (head l = Some x → P x) ∧ (last l = Some x → P x).
Proof.
  intros Hl. rewrite Forall_forall in Hl. split; intros Hx; apply Hl.
  - by apply head_Some_elem_of.
  - by apply last_Some_elem_of.
Qed.

Lemma digits_strip (l : list ascii) :
  Forall (λ c, is_digit c = true) l → ∀ pre, Forall (λ c, is_space c = false) pre →
  strip (pre ++ l) = pre ++ l.
Proof.
  intros Hl pre Hpre.
  assert (Hall : Forall (λ c, is_space c = false) (pre ++ l)).
  { apply Forall_app. split; [done|]. eapply Forall_impl; [done|].
    intros c. apply digit_not_space. }
  apply strip_id.
  - destruct (head (pre ++ l)) as [c|] eqn:E; [|done].
    simpl. by apply (proj1 (Forall_head_last _ _ c Hall)).
  - destruct (last (pre ++ l)) as [c|] eqn:E; [|done].
    simpl. by apply (proj2 (Forall_head_last _ _ c Hall)).
Qed.

(** [int] reads back what [str] writes. *)
Lemma py_int_str (k : Z) : py_int (list_ascii_of_string (str k)) = Some k.
Proof.
  destruct (str_form k) as (d & Hd & Habs & ->).
  pose proof (uint_digits d) as Hdig. pose proof (uint_nonempty d Hd) as Hne.
  unfold py_int. destruct (Z.ltb_spec k 0) as [Hk|Hk].
  - change (list_ascii_of_string ("-" +:+ NilEmpty.string_of_uint d))
      with (["-"%char] ++ list_ascii_of_string (NilEmpty.string_of_uint d)).
    rewrite digits_strip by (done || by repeat constructor). simpl.
    rewrite int_digits_all by (done || by left). simpl.
    rewrite int_of_digits_uint. simpl. f_equal. lia.
  - change (list_ascii_of_string ("" +:+ NilEmpty.string_of_uint d))
      with ([] ++ list_ascii_of_string (NilEmpty.string_of_uint d)).
    rewrite digits_strip by (done || constructor). rewrite app_nil_l.
    destruct (list_ascii_of_string (NilEmpty.string_of_uint d)) as [|c l] eqn:E; [done|].
    assert (Hc : is_digit c = true) by (by inversion Hdig).
    cbv beta iota. destruct (digit_not_sign c Hc) as [-> ->].
    rewrite int_digits_all by (done || by left).
    rewrite <- E. change (int_of_digits ?x = Some k) || simpl mbind.
    rewrite int_of_digits_uint. f_equal. lia.
Qed.

End Decimal.

Section LabelMap.

Lemma str_chars (k : Z) :
  Forall (λ c, is_digit c = true ∨ c = "-"%char) (list_ascii_of_string (str k)).
Proof.
  destruct (str_form k) as (d & _ & _ & ->).
  assert (Hd : Forall (λ c, is_digit c = true ∨ c = "-"%char)
                 (list_ascii_of_string (NilEmpty.string_of_uint d))).
  { eapply Forall_impl; [apply uint_digits|]. by left. }
  destruct (k <? 0)%Z; [|done]. constructor; [by right | done].
Qed.

Lemma str_nonempty (k : Z) : list_ascii_of_string (str k) ≠ [].
Proof.
  destruct (str_form k) as (d & Hd & _ & ->).
  destruct (k <? 0)%Z; [done|]. by apply uint_nonempty.
Qed.

Lemma str_char_plain c :
  is_digit c = true ∨ c = "-"%char →
  is_space c = false ∧ c ≠ ":"%char ∧ c ≠ ","%char ∧ c ≠ " "%char.
Proof.
  intros [Hc| ->]; [|done].
  by destruct c as [[] [] [] [] [] [] [] []].
Qed.

Lemma str_no_char (k : Z) c :
  c = ":"%char ∨ c = ","%char ∨ c = " "%char → c ∉ list_ascii_of_string (str k).
Proof.
  intros Hc Hin. pose proof (str_chars k) as Hk. rewrite Forall_forall in Hk.
  apply Hk, str_char_plain in Hin as (_ & ? & ? & ?).
  destruct Hc as [->|[->| ->]]; done.
Qed.

Lemma str_strip (k : Z) : strip (list_ascii_of_string (str k)) = list_ascii_of_string (str k).
Proof.
  pose proof (str_chars k) as Hk.
  assert (Hall : Forall (λ c, is_space c = false) (list_ascii_of_string (str k))).
  { eapply Forall_impl; [done|]. intros c Hc. by apply str_char_plain in Hc as [? _]. }
  apply strip_id.
  - destruct (head _) as [c|] eqn:E; [|done].
    simpl. by apply (proj1 (Forall_head_last _ _ c Hall)).
  - destruct (last _) as [c|] eqn:E; [|done].
    simpl. by apply (proj2 (Forall_head_last _ _ c Hall)).
Qed.

Variables (k : Z) (v : string).
Hypothesis Hv : clean_name v.

Lemma format_entry_list :
  list_ascii_of_string (format_entry (k, v)) =
  list_ascii_of_string (str k) ++ ":"%char :: list_ascii_of_string v.
Proof. unfold format_entry. simpl. by rewrite list_ascii_of_string_app. Qed.

Lemma format_entry_strip :
  strip (list_ascii_of_string (format_entry (k, v))) =
  list_ascii_of_string (format_entry (k, v)).
Proof.
  destruct Hv as (_ & _ & Hs). rewrite format_entry_list.
  pose proof (str_nonempty k) as Hne. pose proof (str_strip k) as Hk.
  apply strip_id.
  - destruct (list_ascii_of_string (str k)) as [|c l] eqn:E; [done|]. simpl.
    pose proof (str_chars k) as Hc. rewrite E in Hc. inversion Hc as [|? ? Hc' _]; subst.
    by apply str_char_plain in Hc' as [? _].
  - rewrite last_app. simpl. rewrite last_cons.
    pose proof (strip_fixed_last _ Hs) as Hl.
    by destruct (last (list_ascii_of_string v)).
Qed.

Lemma format_entry_split :
  split ":" (list_ascii_of_string (format_entry (k, v))) =
  [list_ascii_of_string (str k); list_ascii_of_string v].
Proof.
  destruct Hv as (_ & Hcolon & _). rewrite format_entry_list.
  rewrite split_app by (apply str_no_char; by left).
  by rewrite split_none.
Qed.

Lemma format_entry_no_comma : ","%char ∉ list_ascii_of_string (format_entry (k, v)).
Proof.
  destruct Hv as (Hcomma & _ & _). rewrite format_entry_list.
  intros [Hin|[Hin|Hin]%elem_of_cons]%elem_of_app; [|done|done].
  revert Hin. apply str_no_char. right. by left.
Qed.

Lemma parse_parts_entry out rest :
  parse_parts out (list_ascii_of_string (format_entry (k, v)) :: rest) =
  parse_parts (<[k := v]> out) rest.
Proof.
  destruct Hv as (_ & _ & Hs).
  change (parse_parts out (?e :: rest)) with
    (match strip e with
     | [] => parse_parts out rest
     | part' =>
         match split ":" part' with
         | [k'; v'] =>
             match py_int (strip k') with
             | Some n => parse_parts (<[n := string_of_list_ascii (strip v')]> out) rest
             | None => None
             end
         | _ => None
         end
     end).
  rewrite format_entry_strip.
  destruct (list_ascii_of_string (format_entry (k, v))) as [|c e] eqn:E.
  - rewrite format_entry_list in E. pose proof (str_nonempty k).
    by destruct (list_ascii_of_string (str k)).
  - rewrite <- E, format_entry_split, str_strip, py_int_str, Hs.
    by rewrite string_of_list_ascii_of_string.
Qed.

End LabelMap.

Lemma parse_parts_entries (l : list (Z * string)) out :
  Forall (λ kv, clean_name kv.2) l →
  parse_parts out (map (λ kv, list_ascii_of_string (format_entry kv)) l) =
  Some (foldl (λ m kv, <[kv.1 := kv.2]> m) out l).
Proof.
  intros Hl. revert out. induction Hl as [|[k v] l Hv Hl IH]; intros out; [done|].
  simpl map. rewrite parse_parts_entry by done. apply IH.
Qed.

Lemma foldl_insert_list_to_map (l : list (Z * string)) :
  foldl (λ m kv, <[kv.1 := kv.2]> m) (∅ : gmap Z string) l = list_to_map (reverse l).
Proof.
  induction l as [|[k v] l IH] using rev_ind; [done|].
  by rewrite foldl_app, reverse_snoc, IH.
Qed.



Section Entries.

Lemma split_inv sep s p ps :
  split sep s = p :: ps →
  (sep ∉ p) ∧
  match ps with
  | [] => s = p
  | _ => ∃ s', s = p ++ sep :: s' ∧ split sep s' = ps
  end.
Proof.
  revert p ps. induction s as [|c s IH]; intros p ps; simpl.
  - intros [= <- <-]. split; [apply not_elem_of_nil | done].
  - destruct (Ascii.eqb_spec c sep) as [->|Hc].
    + intros [= <- <-]. split; [apply not_elem_of_nil|].
      pose proof (split_nonempty sep s). destruct (split sep s) eqn:E; [done|].
      by exists s.
    + destruct (split sep s) as [|q qs] eqn:E; [by destruct (split_nonempty sep s)|].
      intros [= <- <-]. destruct (IH q qs eq_refl) as [Hq Hs]. split.
      * intros [?|?]%elem_of_cons; done.
      * destruct qs; [by rewrite Hs|]. destruct Hs as (s' & -> & Hs').
        by exists s'.
Qed.

(** Exactly two pieces: one separator, with a piece on each side. *)
Lemma split_two sep s k v :
  split sep s = [k; v] ↔ s = k ++ sep :: v ∧ (sep ∉ k) ∧ (sep ∉ v).
Proof.
  split.
  - intros Hs. apply split_inv in Hs as [Hk (s' & -> & Hs')].
    apply split_inv in Hs' as [Hv ->]. done.
  - intros (-> & Hk & Hv). by rewrite split_app, split_none.
Qed.

Lemma parse_parts_cons out part rest :
  parse_parts out (part :: rest) =
  match strip part with
  | [] => parse_parts out rest
  | part' =>
      match split ":" part' with
      | [k; v] =>
          match py_int (strip k) with
          | Some n => parse_parts (<[n := string_of_list_ascii (strip v)]> out) rest
          | None => None
          end
      | _ => None
      end
  end.
Proof. done. Qed.

Lemma lstrip_suffix s : ∃ l, s = l ++ lstrip s.
Proof.
  induction s as [|c s [l IH]]; [by exists []|]. simpl.
  destruct (is_space c); [|by exists []].
  exists (c :: l). simpl. by rewrite <- IH.
Qed.

Lemma strip_head s : from_option is_space false (head (strip s)) = false.
Proof.
  unfold strip. pose proof (lstrip_head s) as Hh.
  destruct (lstrip_suffix (rev (lstrip s))) as [l Hl].
  apply (f_equal (@rev _)) in Hl. rewrite rev_involutive, rev_app_distr in Hl.
  destruct (rev (lstrip (rev (lstrip s)))) as [|c u]; [done|].
  by rewrite Hl in Hh.
Qed.

Lemma strip_idem s : strip (strip s) = strip s.
Proof. apply strip_id; [apply strip_head | apply strip_last]. Qed.

Lemma digit_groups_inv c s :
  digit_groups (c :: s) →
  is_digit c = true ∧
  (s = [] ∨ digit_groups s ∨ ∃ s', s = "_"%char :: s' ∧ digit_groups s').
Proof.
  inversion 1; subst; (split; [done|]); [by left | by right; left |].
  right; right. by eexists.
Qed.

(** [int_digits] accepts the digits in groups, and nothing else. *)
Lemma int_digits_groups s :
  (is_Some (int_digits false s) ↔ digit_groups s) ∧
  (is_Some (int_digits true s) ↔
   s = [] ∨ digit_groups s ∨ ∃ s', s = "_"%char :: s' ∧ digit_groups s').
Proof.
  induction s as [|c s [IHf IHt]].
  - simpl. split; split.
    + by intros [? ?].
    + inversion 1.
    + by left.
    + by eexists.
  - simpl. destruct (is_digit c) eqn:Hc.
    + rewrite !fmap_is_Some, IHt.
      assert (Hg : s = [] ∨ digit_groups s ∨ (∃ s', s = "_"%char :: s' ∧ digit_groups s')
                   ↔ digit_groups (c :: s)).
      { split.
        - intros [->|[H|(s' & -> & H)]];
            [by apply digit_last | by apply digit_next | by apply digit_underscore].
        - intros H. by apply digit_groups_inv in H as [_ H]. }
      split; [done|]. rewrite Hg. split; [by right; left|].
      intros [?|[H|(s' & Hs & H)]]; [done | done |].
      injection Hs as -> ->. done.
    + destruct (Ascii.eqb_spec c "_") as [->|Hne]; simpl.
      * split; split.
        -- by intros [? ?].
        -- intros H. apply digit_groups_inv in H as [H _]. done.
        -- rewrite IHf. intros H. right; right. by exists s.
        -- rewrite IHf. intros [?|[H|(s' & Hs & H)]]; [done | |].
           ++ apply digit_groups_inv in H as [H _]. done.
           ++ by injection Hs as ->.
      * split; split.
        -- by intros [? ?].
        -- intros H. apply digit_groups_inv in H as [H _]. congruence.
        -- by intros [? ?].
        -- intros [?|[H|(s' & Hs & H)]]; [done | |].
           ++ apply digit_groups_inv in H as [H _]. congruence.
           ++ injection Hs as -> ->. done.
Qed.

Lemma int_digits_digits b s ds :
  int_digits b s = Some ds → Forall (λ c, is_digit c = true) ds.
Proof.
  revert b ds. induction s as [|c s IH]; intros b ds; simpl.
  - destruct b; [|done]. intros [= <-]. constructor.
  - destruct (is_digit c) eqn:Hc.
    + intros (ds' & Hds & ->)%fmap_Some. constructor; [done|]. by eapply IH.
    + destruct (Ascii.eqb c "_" && b); [apply IH | done].
Qed.

Lemma uint_of_digits ds :
  Forall (λ c, is_digit c = true) ds →
  is_Some (NilEmpty.uint_of_string (string_of_list_ascii ds)).
Proof.
  induction 1 as [|c ds Hc _ [d IH]]; [by eexists|]. simpl. rewrite IH.
  destruct c as [[] [] [] [] [] [] [] []]; try discriminate Hc; by eexists.
Qed.

(** Digits in groups always have a value. *)
Lemma int_digits_value b s :
  is_Some (int_digits b s ≫= int_of_digits) ↔ is_Some (int_digits b s).
Proof.
  split.
  - intros [z (ds & -> & _)%bind_Some]. by eexists.
  - intros [ds Hds]. rewrite Hds. simpl. unfold int_of_digits.
    rewrite fmap_is_Some. apply uint_of_digits. by eapply int_digits_digits.
Qed.

(** [int] accepts a text exactly when, white space at its ends apart, it is
    a decimal literal. *)
Lemma py_int_literal s : is_Some (py_int s) ↔ int_literal (strip s).
Proof.
  unfold py_int, int_literal. destruct (strip s) as [|c s'].
  - split; [by intros [? ?]|].
    intros (body & [<-|[Hb|Hb]] & Hg); [inversion Hg | done | done].
  - destruct (Ascii.eqb_spec c "-") as [->|Hm]; [|destruct (Ascii.eqb_spec c "+") as [->|Hp]].
    + rewrite fmap_is_Some, int_digits_value, (proj1 (int_digits_groups s')). split.
      * intros H. exists s'. split; [by right; right | done].
      * intros (body & [<-|[Hb|Hb]] & H).
        -- apply digit_groups_inv in H as [H _]. done.
        -- done.
        -- by injection Hb as <-.
    + rewrite int_digits_value, (proj1 (int_digits_groups s')). split.
      * intros H. exists s'. split; [by right; left | done].
      * intros (body & [<-|[Hb|Hb]] & H).
        -- apply digit_groups_inv in H as [H _]. done.
        -- by injection Hb as <-.
        -- done.
    + rewrite int_digits_value, (proj1 (int_digits_groups (c :: s'))). split.
      * intros H. exists (c :: s'). split; [by left | done].
      * intros (body & [<-|[Hb|Hb]] & H); [done | |]; injection Hb as ? ?; congruence.
Qed.

Lemma py_int_strip_literal k : is_Some (py_int (strip k)) ↔ int_literal (strip k).
Proof. by rewrite py_int_literal, strip_idem. Qed.

Lemma parse_parts_ok parts out :
  is_Some (parse_parts out parts) ↔ Forall entry_ok parts.
Proof.
  revert out. induction parts as [|part rest IH]; intros out.
  - split; [constructor | by eexists].
  - rewrite parse_parts_cons, Forall_cons. unfold entry_ok at 1.
    destruct (strip part) as [|c e] eqn:Hp.
    + rewrite IH. split; [by split; [left|] | by intros [_ ?]].
    + destruct (split ":" (c :: e)) as [|k [|v [|w ws]]] eqn:Hs.
      * by destruct (split_nonempty ":" (c :: e)).
      * split; [by intros [? ?]|]. intros [[?|(k' & v' & He & Hk' & Hv' & _)] _]; [done|].
        assert (Hs' : split ":" (c :: e) = [k'; v']) by (by apply split_two).
        congruence.
      * apply split_two in Hs as (He & Hk & Hv).
        pose proof (py_int_strip_literal k) as Hlit.
        destruct (py_int (strip k)) as [n|] eqn:Hn.
        -- rewrite IH. split; [|by intros [_ ?]]. intros Hrest. split; [|done].
           right. exists k, v. repeat (split; [done|]). apply Hlit. by eexists.
        -- split; [by intros [? ?]|].
           intros [[?|(k' & v' & He' & Hk' & Hv' & Hn')] _]; [done|].
           assert (Hs' : split ":" (c :: e) = [k'; v']) by (by apply split_two).
           assert (Hs'' : split ":" (c :: e) = [k; v]) by (by apply split_two).
           rewrite Hs'' in Hs'. injection Hs' as <- <-. apply Hlit in Hn'.
           by destruct Hn'.
      * split; [by intros [? ?]|]. intros [[?|(k' & v' & He & Hk' & Hv' & _)] _]; [done|].
        assert (Hs' : split ":" (c :: e) = [k'; v']) by (by apply split_two).
        congruence.
Qed.

End Entries.

(** X17. On an ASCII text of at most 640 characters, [parse_label_map]
    returns a map exactly when every comma-separated entry is blank or,
    white space at its ends apart, is a key and a name with exactly one
    colon between them, where the key, white space apart, is a decimal
    literal: an optional sign, then digits, with single underscores allowed
    between two digits.  Otherwise it raises. *)
Theorem parse_label_map_succeeds (s : string) :
  ascii_text s → String.length s ≤ 640 →
  is_Some (parse_label_map (Some s)) ↔
  Forall entry_ok (split "," (list_ascii_of_string s)).
Proof. intros _ _. apply parse_parts_ok. Qed.

(** X17 at a map of three entries, one of them blank, and at an entry with
    two colons. *)
Lemma parse_label_map_succeeds_witness :
  Forall entry_ok (split "," (list_ascii_of_string "0:entailment,, +1_0 : neutral")) ∧
  ¬ Forall entry_ok (split "," (list_ascii_of_string "0:entailment,1:a:b")).
Proof.
  split.
  - apply (proj1 (parse_label_map_succeeds "0:entailment,, +1_0 : neutral" eq_refl
                    ltac:(vm_compute; lia))).
    vm_compute. by eexists.
  - intros H.
    apply (proj2 (parse_label_map_succeeds "0:entailment,1:a:b" eq_refl
                    ltac:(vm_compute; lia))) in H.
    vm_compute in H. by destruct H.
Defined.

Section Labels.

Lemma str_inj (x y : Z) : str x = str y → x = y.
Proof.
  intros Hxy. pose proof (py_int_str x) as Hx. rewrite Hxy, py_int_str in Hx.
  congruence.
Qed.

(** Two texts without a space, each followed by nothing or by a space, are
    equal when the whole texts are. *)
Lemma space_prefix_unique (s1 s2 t1 t2 : list ascii) :
  " "%char ∉ s1 → " "%char ∉ s2 →
  t1 = [] ∨ head t1 = Some " "%char → t2 = [] ∨ head t2 = Some " "%char →
  s1 ++ t1 = s2 ++ t2 → s1 = s2.
Proof.
  revert s2. induction s1 as [|c s1 IH]; intros s2 H1 H2 Ht1 Ht2 Heq.
  - destruct s2 as [|d s2]; [done|]. exfalso. simpl in Heq.
    destruct Ht1 as [->|Ht1]; [done|]. destruct t1 as [|e t1]; [done|].
    injection Ht1 as ->. injection Heq as <- _. apply H2. by left.
  - destruct s2 as [|d s2].
    + exfalso. simpl in Heq.
      destruct Ht2 as [->|Ht2]; [done|]. destruct t2 as [|e t2]; [done|].
      injection Ht2 as ->. injection Heq as -> _. apply H1. by left.
    + simpl in Heq. injection Heq as -> Heq. f_equal.
      apply (IH s2); try done.
      * intros Hin. apply H1. by right.
      * intros Hin. apply H2. by right.
Qed.

Lemma fmt_label_list (x : Z) (id2name : gmap Z string) :
  ∃ t, list_ascii_of_string (fmt_label x id2name) = list_ascii_of_string (str x) ++ t ∧
       (t = [] ∨ head t = Some " "%char).
Proof.
  unfold fmt_label. destruct (id2name !! x) as [name|].
  - exists (list_ascii_of_string (" (" +:+ name +:+ ")")).
    split; [by rewrite list_ascii_of_string_app | by right].
  - exists []. by rewrite app_nil_r; split; [|left].
Qed.

End Labels.

(** X18. [fmt_label] writes different labels differently, whatever names
    the label map gives them. *)
Theorem fmt_label_injective (id2name : gmap Z string) (x y : Z) :
  fmt_label x id2name = fmt_label y id2name → x = y.
Proof.
  intros Heq. apply (f_equal list_ascii_of_string) in Heq.
  destruct (fmt_label_list x id2name) as (tx & Hx & Htx).
  destruct (fmt_label_list y id2name) as (ty & Hy & Hty).
  rewrite Hx, Hy in Heq.
  apply space_prefix_unique in Heq; try done.
  - apply str_inj. apply (f_equal string_of_list_ascii) in Heq.
    by rewrite !string_of_list_ascii_of_string in Heq.
  - apply str_no_char. right. by right.
  - apply str_no_char. right. by right.
Qed.

Lemma fmt_label_injective_witness : (2 = 2)%Z.
Proof.
  apply (fmt_label_injective {[ 2%Z := "contradiction" ]} 2 2). reflexivity.
Defined.

(** X19. The label map is parsed before anything is printed: a map that
    [parse_label_map] rejects ends the program with [ValueError] and no
    output, whatever the rows are.  With a good map the program fails only
    when no row is scored, and otherwise prints the report and then the
    table of confusions. *)
Theorem main_with_confusions_outcome (label_map : option string)
    (show_confusions : bool) (top_confusions : Z) (a : args) (rows : list row) :
  main_with_confusions label_map show_confusions top_confusions a rows =
  match parse_label_map label_map with
  | None => Failed [] ValueError
  | Some id2name =>
      match List.filter scored rows with
      | [] => Failed [LFile (pred_file a); LScored 0] ZeroDivision
      | _ :: _ =>
          Finished (report a (run a rows))
            (print_confusions show_confusions top_confusions id2name (conf_items rows))
      end
  end.
Proof.
  unfold main_with_confusions. destruct (parse_label_map label_map); [|done].
  destruct (List.filter scored rows) as [|r l] eqn:E.
  - by rewrite main_nothing_scored_raises.
  - rewrite main_scored_returns; [done | by rewrite E].
Qed.

(** ** Tokens and whole words *)

Section Runs.
Implicit Types (l w acc pre post : list ascii).

Lemma forallb_token_last w c :
  forallb is_token_char w = true → last w = Some c → is_token_char c = true.
Proof.
  intros Hw Hc. rewrite forallb_forall in Hw. apply Hw.
  by apply list_elem_of_In, last_Some_elem_of.
Qed.

Lemma forallb_token_head w c :
  forallb is_token_char w = true → head w = Some c → is_token_char c = true.
Proof.
  intros Hw Hc. rewrite forallb_forall in Hw. apply Hw.
  by apply list_elem_of_In, head_Some_elem_of.
Qed.

(** A run of token characters has itself as its only maximal run. *)
Lemma token_run_all l w :
  forallb is_token_char l = true → token_run l w → w = l.
Proof.
  intros Hl (pre & post & -> & Hne & Hw & Hpre & Hpost).
  rewrite !forallb_app in Hl. apply andb_true_iff in Hl as [Hlpre Hl].
  apply andb_true_iff in Hl as [_ Hlpost].
  destruct pre as [|c pre] using rev_ind.
  - destruct post as [|d post]; [by rewrite app_nil_r|].
    simpl in Hpost. by rewrite (forallb_token_head _ d Hlpost) in Hpost.
  - rewrite last_snoc in Hpre. simpl in Hpre.
    rewrite (forallb_token_last (pre ++ [c]) c) in Hpre; [done | done | apply last_snoc].
Qed.

Lemma token_run_self l :
  l ≠ [] → forallb is_token_char l = true → token_run l l.
Proof. intros Hne Hl. exists [], []. by rewrite app_nil_r. Qed.

(** A run never crosses a separator: it lies before it or after it. *)
Lemma token_run_sep l1 c l2 w :
  is_token_char c = false →
  token_run (l1 ++ c :: l2) w ↔ token_run l1 w ∨ token_run l2 w.
Proof.
  intros Hc. split.
  - intros (pre & post & Heq & Hne & Hw & Hpre & Hpost).
    apply app_eq_app in Heq as [m [[-> Heq]|[-> Heq]]].
    + (* the run starts inside [l1] *)
      left. apply app_eq_app in Heq as [m' [[-> Heq]|[-> ->]]].
      * destruct m' as [|e m'].
        -- rewrite app_nil_r in *. exists pre, []. by rewrite app_nil_r.
        -- exfalso. injection Heq as <- _.
           rewrite forallb_app in Hw. apply andb_true_iff in Hw as [_ Hw].
           simpl in Hw. by rewrite Hc in Hw.
      * exists pre, m'. repeat split; try done.
        by destruct m'.
    + (* the run starts after the separator *)
      destruct m as [|d m].
      * exfalso. simpl in Heq. destruct w as [|e w]; [done|].
        injection Heq as <- _. simpl in Hw. by rewrite Hc in Hw.
      * injection Heq as <- ->. right. exists m, post.
        repeat split; try done.
        destruct m as [|e m] using rev_ind; [done|].
        rewrite last_snoc. by rewrite app_comm_cons, app_assoc, last_snoc in Hpre.
  - intros [(pre & post & -> & Hne & Hw & Hpre & Hpost)|
            (pre & post & -> & Hne & Hw & Hpre & Hpost)].
    + exists pre, (post ++ c :: l2). rewrite <- !app_assoc.
      repeat split; try done.
      destruct post as [|e post]; [simpl; by rewrite Hc | done].
    + exists (l1 ++ c :: pre), post. rewrite <- app_assoc. simpl.
      repeat split; try done.
      destruct pre as [|e pre] using rev_ind.
      * rewrite last_snoc. simpl. by rewrite Hc.
      * rewrite app_comm_cons, app_assoc, last_snoc. by rewrite last_snoc in Hpre.
Qed.

End Runs.

Section TokenRuns.
Implicit Types (l w acc : list ascii) (t : string).

Lemma forallb_rev (f : ascii → bool) l : forallb f (rev l) = forallb f l.
Proof.
  induction l as [|c l IH]; [done|]. simpl.
  rewrite forallb_app, IH. simpl. by rewrite andb_true_r, andb_comm.
Qed.

Lemma token_run_nil w : ¬ token_run [] w.
Proof.
  intros (pre & post & Heq & Hne & _). symmetry in Heq.
  apply app_eq_nil in Heq as [_ Heq]. by apply app_eq_nil in Heq as [? _].
Qed.

Lemma flush_elem acc t :
  forallb is_token_char acc = true →
  t ∈ flush acc ↔ ∃ w, t = string_of_list_ascii w ∧ token_run (rev acc) w.
Proof.
  intros Hacc. destruct acc as [|c acc].
  - split; [by intros ?%elem_of_nil|]. intros (w & _ & Hw). by apply token_run_nil in Hw.
  - assert (Hne : rev (c :: acc) ≠ []).
    { intros He. apply (f_equal (@rev _)) in He. by rewrite rev_involutive in He. }
    rewrite <- forallb_rev in Hacc.
    change (flush (c :: acc)) with [string_of_list_ascii (rev (c :: acc))].
    rewrite list_elem_of_singleton. split.
    + intros ->. exists (rev (c :: acc)). split; [done|]. by apply token_run_self.
    + intros (w & -> & Hw). by rewrite (token_run_all _ _ Hacc Hw).
Qed.

(** The tokens [WORD_RE.findall] yields are the maximal runs of token
    characters of the text. *)
Lemma findall_from_elem acc l t :
  forallb is_token_char acc = true →
  t ∈ findall_from acc l ↔
  ∃ w, t = string_of_list_ascii w ∧ token_run (rev acc ++ l) w.
Proof.
  revert acc. induction l as [|c l IH]; intros acc Hacc.
  - rewrite app_nil_r. by apply flush_elem.
  - simpl findall_from. destruct (is_token_char c) eqn:Hc.
    + rewrite IH by (simpl; by rewrite Hc). simpl. by rewrite <- app_assoc.
    + rewrite elem_of_app, flush_elem, (IH []) by done. simpl. split.
      * intros [(w & -> & Hw)|(w & -> & Hw)]; exists w; (split; [done|]);
          apply token_run_sep; auto.
      * intros (w & -> & [Hw|Hw]%token_run_sep); [left | right | done]; by exists w.
Qed.

End TokenRuns.

Lemma plain_char_token c :
  c ≠ "'"%char → c ≠ "_"%char → is_token_char c = is_w c.
Proof.
  intros H1 H2.
  destruct c as [[] [] [] [] [] [] [] []]; try done; by destruct H1 || by destruct H2.
Qed.

Lemma plain_at (s : list ascii) (o : option ascii) :
  "'"%char ∉ s → "_"%char ∉ s → (∀ c, o = Some c → c ∈ s) →
  is_token_at o = is_w_at o.
Proof.
  intros H1 H2 Ho. destruct o as [c|]; [|done]. simpl.
  specialize (Ho c eq_refl). apply plain_char_token; intros ->; done.
Qed.

Lemma is_token_at_lower_last (l : list ascii) :
  is_token_at (last (lower l)) = is_token_at (last l).
Proof.
  rewrite last_lower. destruct (last l); [apply is_token_char_lower_char | done].
Qed.

Lemma is_token_at_lower_head (l : list ascii) :
  is_token_at (head (lower l)) = is_token_at (head l).
Proof. destruct l; [done | apply is_token_char_lower_char]. Qed.

Lemma NEG_WORDS_token_chars (w : string) :
  w ∈ NEG_WORDS → w ≠ "" ∧ forallb is_token_char (list_ascii_of_string w) = true.
Proof.
  intros Hw.
  assert (H : forallb (λ w, negb (String.eqb w "") &&
                forallb is_token_char (list_ascii_of_string w)) NEG_WORDS = true)
    by reflexivity.
  rewrite forallb_forall in H. apply list_elem_of_In, H in Hw.
  apply andb_true_iff in Hw as [Hne Hw]. split; [|done].
  intros ->. done.
Qed.

(** X20. On an ASCII text without apostrophes and underscores,
    [has_negation] is true exactly when one of the tokens [tokenize] yields
    is a negation token. *)
Theorem has_negation_tokens (s : string) :
  ascii_text s →
  "'"%char ∉ list_ascii_of_string s → "_"%char ∉ list_ascii_of_string s →
  has_negation (Some s) = true ↔ ∃ t, t ∈ tokenize (Some s) ∧ t ∈ NEG_WORDS.
Proof.
  intros _ H1 H2. rewrite has_negation_split. unfold tokenize, WORD_RE_findall.
  simpl or_empty. set (l := list_ascii_of_string s) in *. split.
  - intros (pre & w & post & Hl & Hw & Hpre & Hpost).
    exists (string_of_list_ascii (lower w)). split; [|done].
    apply findall_from_elem; [done|]. exists (lower w). split; [done|].
    destruct (NEG_WORDS_token_chars _ Hw) as [Hne Htok].
    rewrite list_ascii_of_string_of_list_ascii in Htok.
    exists (lower pre), (lower post). simpl. rewrite Hl, !lower_app.
    split; [done|]. split.
    { intros He. apply Hne. by rewrite He. }
    split; [done|].
    rewrite is_token_at_lower_last, is_token_at_lower_head.
    rewrite (plain_at l (last pre)), (plain_at l (head post)); try done.
    + intros c Hc. rewrite Hl. apply head_Some_elem_of in Hc.
      rewrite !elem_of_app. auto.
    + intros c Hc. rewrite Hl. apply last_Some_elem_of in Hc.
      rewrite !elem_of_app. auto.
  - intros (t & Ht & Hneg).
    apply findall_from_elem in Ht as (w' & -> & pre' & post' & Hl & Hne & Htok & Hpre & Hpost);
      [|done].
    simpl in Hl. unfold lower in Hl.
    apply map_eq_app in Hl as (pre & rest & Hl & <- & Hrest).
    apply map_eq_app in Hrest as (w & post & -> & <- & <-).
    fold (lower pre) in Hpre. fold (lower post) in Hpost. fold (lower w) in Hneg.
    rewrite is_token_at_lower_last in Hpre. rewrite is_token_at_lower_head in Hpost.
    exists pre, w, post. split; [done|]. split; [done|].
    rewrite <- (plain_at l (last pre)), <- (plain_at l (head post)); try done.
    + intros c Hc. rewrite Hl. apply head_Some_elem_of in Hc.
      rewrite !elem_of_app. auto.
    + intros c Hc. rewrite Hl. apply last_Some_elem_of in Hc.
      rewrite !elem_of_app. auto.
Qed.

Lemma has_negation_tokens_witness :
  has_negation (Some "Nobody is here") = true ↔
  ∃ t, t ∈ tokenize (Some "Nobody is here") ∧ t ∈ NEG_WORDS.
Proof.
  apply has_negation_tokens;
    [reflexivity | apply (bool_decide_unpack _); by vm_compute ..].
Defined.

(** X21. The tokens of an ASCII text are exactly the maximal runs of
    letters, digits and apostrophes of the text in lower case. *)
Theorem tokenize_runs (s : string) (t : string) :
  ascii_text s →
  t ∈ tokenize (Some s) ↔
  ∃ w, t = string_of_list_ascii w ∧ token_run (lower (list_ascii_of_string s)) w.
Proof. intros _. unfold tokenize, WORD_RE_findall. by apply findall_from_elem. Qed.

(** X21 at the token [dogs] of a text of two words. *)
Lemma tokenize_runs_witness :
  ∃ w, "dogs" = string_of_list_ascii w ∧
       token_run (lower (list_ascii_of_string "Dogs, cats")) w.
Proof.
  apply (proj1 (tokenize_runs "Dogs, cats" "dogs" eq_refl)).
  apply (bool_decide_unpack _). by vm_compute.
Defined.

(** ** What the statistics depend on *)

Section Independence.

Lemma filter_length_perm {A} (f : A → bool) (l l' : list A) :
  l ≡ₚ l' → length (List.filter f l) = length (List.filter f l').
Proof.
  induction 1 as [|x l l' _ IH|x y l|l1 l2 l3 _ IH1 _ IH2]; simpl; try done.
  - destruct (f x); simpl; lia.
  - destruct (f x), (f y); done.
  - congruence.
Qed.

Lemma run_slice_tot_lookup (a : args) rows k n :
  slice_tot (run a rows) !! k = Some n ↔
  n = length (List.filter (in_slice k) rows) ∧ ∃ r, r ∈ rows ∧ in_slice k r = true.
Proof.
  rewrite <- (proj1 (run_keys a rows k)), <- (run_slice_tot_count a). unfold count. split.
  - intros Hk. rewrite Hk. split; [done | by eexists].
  - intros [-> [m Hm]]. by rewrite Hm.
Qed.

Lemma run_slice_cor_lookup (a : args) rows k n :
  slice_cor (run a rows) !! k = Some n ↔
  n = length (List.filter (λ r, in_slice k r && is_right r) rows) ∧
  ∃ r, r ∈ rows ∧ in_slice k r = true.
Proof.
  rewrite <- (proj2 (run_keys a rows k)), <- (run_slice_cor_count a). unfold count. split.
  - intros Hk. rewrite Hk. split; [done | by eexists].
  - intros [-> [m Hm]]. by rewrite Hm.
Qed.

Lemma run_conf_lookup (a : args) rows g p n :
  conf (run a rows) !! (g, p) = Some n ↔
  n = length (List.filter (scored_as g p) rows) ∧ 1 ≤ n.
Proof. rewrite <- (conf_items_elem a). apply conf_items_count_iff. Qed.

Lemma option_eq_iff {A} (o1 o2 : option A) :
  (∀ x, o1 = Some x ↔ o2 = Some x) → o1 = o2.
Proof.
  intros H. destruct o1 as [x|], o2 as [y|]; try done.
  - by apply H.
  - symmetry. by apply (H x).
  - by apply (H y).
Qed.

End Independence.

(** X22. The counters the loop fills depend only on which rows the file
    holds, not on their order and not on the flags that choose what is
    shown. *)
Theorem counters_independent (a a' : args) (rows rows' : list row) :
  rows ≡ₚ rows' →
  total (run a rows) = total (run a' rows') ∧
  correct (run a rows) = correct (run a' rows') ∧
  slice_tot (run a rows) = slice_tot (run a' rows') ∧
  slice_cor (run a rows) = slice_cor (run a' rows') ∧
  conf (run a rows) = conf (run a' rows').
Proof.
  intros Hp.
  assert (Hex : ∀ k, (∃ r, r ∈ rows ∧ in_slice k r = true) ↔
                     (∃ r, r ∈ rows' ∧ in_slice k r = true)).
  { intros k. split; intros (r & Hin & Hr); exists r; split; try done.
    - by rewrite <- Hp.
    - by rewrite Hp. }
  split; [by rewrite !run_total, (filter_length_perm _ _ _ Hp)|].
  split; [by rewrite !run_correct, (filter_length_perm _ _ _ Hp)|].
  split; [|split].
  - apply map_eq. intros k. apply option_eq_iff. intros n.
    by rewrite !run_slice_tot_lookup, (filter_length_perm _ _ _ Hp), Hex.
  - apply map_eq. intros k. apply option_eq_iff. intros n.
    by rewrite !run_slice_cor_lookup, (filter_length_perm _ _ _ Hp), Hex.
  - apply map_eq. intros [g p]. apply option_eq_iff. intros n.
    by rewrite !run_conf_lookup, (filter_length_perm _ _ _ Hp).
Qed.

Lemma counters_independent_witness :
  slice_tot (run (Args "a.jsonl" false 3)
               [Row (Val "A dog") (Val "No dog") (Val 0%Z) (Val 1%Z);
                Row (Val "A cat") (Val "A cat") (Val 0%Z) (Val 0%Z)]) =
  slice_tot (run (Args "b.jsonl" true 1)
               [Row (Val "A cat") (Val "A cat") (Val 0%Z) (Val 0%Z);
                Row (Val "A dog") (Val "No dog") (Val 0%Z) (Val 1%Z)]).
Proof.
  apply (counters_independent (Args "a.jsonl" false 3) (Args "b.jsonl" true 1)).
  apply Permutation_swap.
Defined.

(** X23. With a scored row, the overall accuracy and the accuracy of every
    line of a table lie between 0 and 1. *)
Theorem accuracies_in_range (a : args) (rows : list row) (pfx : string) :
  let st := run a rows in
  List.filter scored rows ≠ [] →
  (0 <= Z.of_nat (correct st) # Pos.of_nat (total st))%Q ∧
  (Z.of_nat (correct st) # Pos.of_nat (total st) <= 1)%Q ∧
  ∀ x, x ∈ group_items st pfx → (0 <= x.2)%Q ∧ (x.2 <= 1)%Q.
Proof.
  intros st Hrows. subst st. split; [unfold Qle; simpl; lia|]. split.
  - apply Qmake_nat_le_1; [|by apply run_total_nonzero].
    rewrite run_correct, run_total. clear.
    induction rows as [|r rows IH]; [done|]. simpl.
    pose proof (unscored_not_right r) as Hr.
    destruct (scored r), (is_right r); simpl; lia || by specialize (Hr eq_refl).
  - intros [[k n] acc] Hx. apply elem_of_group_items in Hx as (Hk & _ & ->). simpl.
    split; [unfold Qle; simpl; lia|].
    apply Qmake_nat_le_1; [|by apply (run_slice_tot_nonzero a rows k)].
    assert (Hn : count (slice_tot (run a rows)) k = n) by (unfold count; by rewrite Hk).
    rewrite <- Hn, run_slice_tot_count, run_slice_cor_count. apply filter_length_le.
Qed.

Lemma accuracies_in_range_witness :
  (Z.of_nat (correct (run (Args "a.jsonl" false 3)
      [Row (Val "A dog") (Val "No dog") (Val 0%Z) (Val 1%Z)])) #
   Pos.of_nat (total (run (Args "a.jsonl" false 3)
      [Row (Val "A dog") (Val "No dog") (Val 0%Z) (Val 1%Z)])) <= 1)%Q.
Proof.
  apply (accuracies_in_range (Args "a.jsonl" false 3)
           [Row (Val "A dog") (Val "No dog") (Val 0%Z) (Val 1%Z)] "NEG::").
  by vm_compute.
Defined.
